(** * Ligretto tournament scheduler: seating by Latin squares and
      seat-effect correction of the scores

    A shallow embedding of [main.py].  The program draws a randomised Latin
    square per block, expands it into a seating plan, reads one score per
    seat and round from standard input, appends the scores to a growing
    table [df_all], recomputes seat-corrected scores over the whole table
    and aggregates them into cumulative totals.

    Python lists are [list]s read with [!!] and written with [<[i:=x]>];
    an index outside the list raises [IndexError].  Python dictionaries are
    [gmap]s.  Python floats are IEEE binary64 numbers, which are Rocq's
    primitive [float]s.  Exceptions are the [Raise] results of type
    [result]; the random generator and standard input are threaded through
    the program as an explicit [world]. *)

From Stdlib Require Import PrimFloat.
From stdpp Require Import gmap strings list fin_maps sorting.


(** ** Exceptions *)

Inductive exn : Set :=
  | IndexError
  | KeyError
  | EOFError
  | ValueError
  | LinAlgError.

Inductive result (A : Type) : Type :=
  | Ok (a : A)
  | Raise (e : exn).
Arguments Ok {A} a.
Arguments Raise {A} e.

Global Instance result_ret : MRet result := λ A a, Ok a.
Global Instance result_bind : MBind result := λ A B f m,
  match m with
  | Ok a => f a
  | Raise e => Raise e
  end.
Global Instance result_fmap : FMap result := λ A B f m,
  match m with
  | Ok a => Ok (f a)
  | Raise e => Raise e
  end.

(** [l[i]] for a non-negative index. *)
Definition getitem {A} (l : list A) (i : nat) : result A :=
  match l !! i with
  | Some x => Ok x
  | None => Raise IndexError
  end.

(** [d[k]] on a dictionary. *)
Definition dict_getitem `{Countable K} {A} (d : gmap K A) (k : K) : result A :=
  match d !! k with
  | Some x => Ok x
  | None => Raise KeyError
  end.

(** [for x in xs: body], with the variables the body assigns as the loop
    state [s]. *)
Fixpoint for_each {A S} (xs : list A) (body : A → S → result S) (s : S)
    : result S :=
  match xs with
  | [] => Ok s
  | x :: xs => s' ← body x s; for_each xs body s'
  end.

(** A list comprehension [[f x for x in xs]] whose element may raise. *)
Fixpoint comprehension {A B} (f : A → result B) (xs : list A)
    : result (list B) :=
  match xs with
  | [] => Ok []
  | x :: xs => y ← f x; ys ← comprehension f xs; Ok (y :: ys)
  end.

(** ** The design generator *)

(** The cyclic square of line 13: cell [(i, j)] holds [(i + j) % n].  For
    [n = 0] there is no cell, and the remainder is never taken. *)
Definition standard_square (n : nat) : list (list nat) :=
  (λ i, (λ j, (i + j) mod n) <$> seq 0 n) <$> seq 0 n.

(** Lines 18-20: [L[i][j] = symbol_perm[L[i][j]]], in place. *)
Definition relabel_cell (symbol_perm : list nat) (i j : nat)
    (L : list (list nat)) : result (list (list nat)) :=
  row ← getitem L i;
  x ← getitem row j;
  v ← getitem symbol_perm x;
  Ok (<[i := <[j := v]> row]> L).

Definition relabel (symbol_perm : list nat) (n : nat) (L : list (list nat))
    : result (list (list nat)) :=
  for_each (seq 0 n)
    (λ i L, for_each (seq 0 n) (λ j L, relabel_cell symbol_perm i j L) L) L.

(** Lines 26-29: [row = [L[i][col] for col in col_perm]], appended to
    [L_perm]. *)
Definition permute_columns (col_perm : list nat) (n : nat)
    (L : list (list nat)) : result (list (list nat)) :=
  for_each (seq 0 n)
    (λ i L_perm,
       row ← comprehension (λ col, Li ← getitem L i; getitem Li col) col_perm;
       Ok (L_perm ++ [row]))
    [].

(** ** Tables *)

(** A row of the seating plan of one block.  [Block] is the column that
    line 68 adds; it is absent ([None]) in what [create_seating_plan]
    returns. *)
Module Plan.
Record row : Type :=
  Row { Runde : nat; Platz : nat; Spieler : string; Block : option nat }.
End Plan.

(** A row of [df_all].  The two columns the correction writes are absent
    ([None], a missing value in pandas) in a row that was appended and not
    yet corrected. *)
Module Ledger.
Record row : Type :=
  Row { Block : nat; Runde : nat; Spieler : string; Platz : nat;
        Punkte : float;
        Punkte_vorhergesagt : option float;
        Punkte_korr : option float }.
End Ledger.

(** A row of [df_agg]. *)
Module Agg.
Record row : Type :=
  Row { Runde : nat; Spieler : string; Punkte_korr : float;
        Punkte_korr_cum : option float }.
End Agg.

(** [pivot_cum]: one line per round of [index], one column per player of
    [columns]. *)
Record pivot_table : Type :=
  Pivot { index : list nat; columns : list string; cells : list (list float) }.

(** What [mixedlm(...).fit()] returns, as far as the program reads it.  A
    fit that did not converge warns and still returns its results, with
    [converged] false.  [fittedvalues] is a property that is computed when it
    is read: it predicts the random effects, which raises [ValueError] when
    the fitted covariance of the random effects is singular, and gives the
    fitted values by row label otherwise. *)
Record MixedLMResults : Type :=
  Results { converged : bool; fittedvalues : result (list float) }.

(** ** Sorting and grouping, as pandas does them

    The pandas operations the program calls are modelled by what they are
    documented to compute: a stable sort by the given columns; group
    aggregations with the groups in the order of their keys; sums, means and
    running sums that skip missing values (NaN).  The sums and running sums
    of a group are compensated, as in the group kernels of pandas; the sum
    under the mean of line 111 is the left fold of binary64 addition, which
    is what the compensated sum gives on the groups of one row that the
    first round of the program has. *)

Fixpoint insert_sorted {A} (le : A → A → bool) (x : A) (l : list A) : list A :=
  match l with
  | [] => [x]
  | y :: l' => if le x y then x :: l else y :: insert_sorted le x l'
  end.

(** A stable sort by the order [le]. *)
Definition sort_by {A} (le : A → A → bool) (l : list A) : list A :=
  foldr (insert_sorted le) [] l.

(** The order of [sort_values(by=["Runde", "Platz"])]. *)
Definition plan_le (a b : Plan.row) : bool :=
  (Plan.Runde a <? Plan.Runde b)
  || ((Plan.Runde a =? Plan.Runde b) && (Plan.Platz a <=? Plan.Platz b)).

(** The order of the group keys [(Runde, Spieler)]. *)
Definition key_le (a b : nat * string) : bool :=
  (a.1 <? b.1) || ((a.1 =? b.1) && String.leb a.2 b.2).

(** One pass over the rows with one accumulator per group key: what a
    [groupby] aggregation computes. *)
Definition groupby_fold `{Countable K} {V A} (step : A → V → A) (init : A)
    (kvs : list (K * V)) : gmap K A :=
  foldl (λ acc kv, <[kv.1 := step (default init (acc !! kv.1)) kv.2]> acc) ∅ kvs.

(** The addition under a mean: a missing value (NaN) is skipped. *)
Definition nan_skip_add (s v : float) : float :=
  if is_nan v then s else (s + v)%float.

(** The running sum and the number of values of a group, NaN skipped. *)
Definition mean_step (acc : float * nat) (v : float) : float * nat :=
  if is_nan v then acc else ((acc.1 + v)%float, S acc.2).

(** A count as a float. *)
Fixpoint float_of_nat (n : nat) : float :=
  match n with
  | 0 => 0%float
  | S n => (float_of_nat n + 1)%float
  end.

Definition mean_of (acc : float * nat) : float :=
  (acc.1 / float_of_nat acc.2)%float.

(** [groupby(key)[value].transform("mean")]: every row gets the mean of
    its group. *)
Definition transform_mean (kvs : list (nat * float)) : list float :=
  let groups := groupby_fold mean_step (0%float, 0) kvs in
  (λ kv, default nan (mean_of <$> groups !! kv.1)) <$> kvs.

(** One step of the compensated (Kahan) summation of the group kernels:
    next to the running sum [acc.1] the kernel keeps the rounding error
    [acc.2] of the additions made so far and takes it off the next value.
    A NaN value is skipped. *)
Definition kahan_step (acc : float * float) (val : float) : float * float :=
  if is_nan val then acc
  else
    let y := (val - acc.2)%float in
    let t := (acc.1 + y)%float in
    (t, (t - acc.1 - y)%float).

(** [groupby(key)[value].cumsum()]: every row gets the running sum of its
    group up to and including that row; a NaN value gives NaN and leaves
    the running sum and its compensation as they are. *)
Fixpoint group_cumsum (acc : gmap string (float * float))
    (kvs : list (string * float)) : list float :=
  match kvs with
  | [] => []
  | kv :: kvs =>
      if is_nan kv.2 then nan :: group_cumsum acc kvs
      else
        let st := kahan_step (default (0%float, 0%float) (acc !! kv.1)) kv.2 in
        st.1 :: group_cumsum (<[kv.1 := st]> acc) kvs
  end.

(** [fillna(0)] on one cell. *)
Definition fillna0 (c : option float) : float :=
  match c with
  | Some v => if is_nan v then 0%float else v
  | None => 0%float
  end.

(** [df[column].nunique()] *)
Definition nunique (xs : list nat) : nat := length (remove_dups xs).

(** ** The seating plan builder *)

(** Lines 41-49. *)
Definition plan_rows (players : list string) (latin_sq : list (list nat))
    (n : nat) : result (list Plan.row) :=
  for_each (seq 0 n)
    (λ r plan_data,
       for_each (seq 0 n)
         (λ seat plan_data,
            row ← getitem latin_sq r;
            player_idx ← getitem row seat;
            player ← getitem players player_idx;
            Ok (plan_data ++ [Plan.Row (r + 1) (seat + 1) player None]))
         plan_data)
    [].

(** Lines 51-52.  A frame built from an empty list of records has no
    columns, and sorting it by ["Runde"] raises [KeyError]. *)
Definition sorted_frame (plan_data : list Plan.row) : result (list Plan.row) :=
  match plan_data with
  | [] => Raise KeyError
  | _ => Ok (sort_by plan_le plan_data)
  end.

(** Line 68: [seating_plan["Block"] = block_count]. *)
Definition set_block (block_count : nat) (seating_plan : list Plan.row)
    : list Plan.row :=
  (λ row, Plan.Row (Plan.Runde row) (Plan.Platz row) (Plan.Spieler row)
            (Some block_count)) <$> seating_plan.

(** ** The correction engine *)

(** Line 111: the naive correction. *)
Definition naive_correction (df_all : list Ledger.row) : list Ledger.row :=
  let means :=
    transform_mean ((λ r, (Ledger.Platz r, Ledger.Punkte r)) <$> df_all) in
  zip_with
    (λ r m, Ledger.Row (Ledger.Block r) (Ledger.Runde r) (Ledger.Spieler r)
              (Ledger.Platz r) (Ledger.Punkte r) (Ledger.Punkte_vorhergesagt r)
              (Some (Ledger.Punkte r - m)%float))
    df_all means.

(** Line 107: the fitted values are assigned by row label; a row without a
    fitted value gets a missing value. *)
Definition set_vorhergesagt (fitted : list float) (df_all : list Ledger.row)
    : list Ledger.row :=
  imap
    (λ i r, Ledger.Row (Ledger.Block r) (Ledger.Runde r) (Ledger.Spieler r)
              (Ledger.Platz r) (Ledger.Punkte r) (fitted !! i)
              (Ledger.Punkte_korr r))
    df_all.

(** Line 108. *)
Definition set_korr (df_all : list Ledger.row) : list Ledger.row :=
  (λ r, Ledger.Row (Ledger.Block r) (Ledger.Runde r) (Ledger.Spieler r)
          (Ledger.Platz r) (Ledger.Punkte r) (Ledger.Punkte_vorhergesagt r)
          ((λ f, (Ledger.Punkte r - f)%float) <$> Ledger.Punkte_vorhergesagt r))
    <$> df_all.

(** What the model is fitted on: the response, the seat and the group of
    every row. *)
Definition model_frame (df_all : list Ledger.row)
    : list (float * nat * string) :=
  (λ r, (Ledger.Punkte r, Ledger.Platz r, Ledger.Spieler r)) <$> df_all.

(** ** The aggregator *)

(** Line 114: one row per [(Runde, Spieler)] in the table, in the order of
    the keys, with the sum of its corrected scores. *)
Definition groupby_sum (df_all : list Ledger.row) : list Agg.row :=
  let kvs :=
    (λ r, ((Ledger.Runde r, Ledger.Spieler r),
           default nan (Ledger.Punkte_korr r))) <$> df_all in
  let sums := groupby_fold kahan_step (0%float, 0%float) kvs in
  (λ k, Agg.Row k.1 k.2 (default 0%float (fst <$> sums !! k)) None)
    <$> sort_by key_le (remove_dups kvs.*1).

(** Line 115. *)
Definition set_cum (df_agg : list Agg.row) : list Agg.row :=
  zip_with
    (λ a c, Agg.Row (Agg.Runde a) (Agg.Spieler a) (Agg.Punkte_korr a) (Some c))
    df_agg
    (group_cumsum ∅ ((λ a, (Agg.Spieler a, Agg.Punkte_korr a)) <$> df_agg)).

(** Line 116: [pivot(...).fillna(0)].  The keys of [df_agg] are distinct, so
    that no cell of the pivot is given twice. *)
Definition pivot_fillna (df_agg : list Agg.row) : pivot_table :=
  let idx := sort_by Nat.leb (remove_dups (Agg.Runde <$> df_agg)) in
  let cols := sort_by String.leb (remove_dups (Agg.Spieler <$> df_agg)) in
  let cell : gmap (nat * string) float :=
    list_to_map
      (omap (λ a, c ← Agg.Punkte_korr_cum a; Some ((Agg.Runde a, Agg.Spieler a), c))
         df_agg) in
  Pivot idx cols ((λ r, (λ p, fillna0 (cell !! (r, p))) <$> cols) <$> idx).

(** Lines 114-116. *)
Definition aggregate (df_all : list Ledger.row) : pivot_table :=
  pivot_fillna (set_cum (groupby_sum df_all)).

(** ** Vocabulary of the statements *)

(** Column [j] of a matrix, when every row has a cell [j]. *)
Definition column (j : nat) (L : list (list nat)) : option (list nat) :=
  mapM (.!! j) L.

(** What the generator returns, given the two shuffles it draws. *)
Definition shuffled_square (symbol_perm col_perm : list nat) (n : nat)
    : list (list nat) :=
  (λ row : list nat, (row !!!.) <$> col_perm)
    <$> ((λ row : list nat, (symbol_perm !!!.) <$> row) <$> standard_square n).

(** The seating plan of the design [latin_sq] for [players]: round [r + 1]
    seats player [players[latin_sq[r][seat]]] on seat [seat + 1]. *)
Definition seating_of (players : list string) (latin_sq : list (list nat))
    (n : nat) : list Plan.row :=
  concat
    ((λ r, (λ seat, Plan.Row (r + 1) (seat + 1)
                      (players !!! ((latin_sq !!! r) !!! seat)) None)
             <$> seq 0 n)
       <$> seq 0 n).

(** Earlier round, or same round and lower seat. *)
Definition plan_lt (a b : Plan.row) : Prop :=
  Plan.Runde a < Plan.Runde b
  ∨ (Plan.Runde a = Plan.Runde b ∧ Plan.Platz a < Plan.Platz b).

(** The sum of a list of floats by additions from the left, its number of
    values and its mean, NaN skipped. *)
Definition nansum (vs : list float) : float := foldl nan_skip_add 0%float vs.
Definition nancount (vs : list float) : nat :=
  length (filter (λ v, is_nan v = false) vs).
Definition mean (vs : list float) : float :=
  (nansum vs / float_of_nat (nancount vs))%float.

(** The compensated sum of a list of floats, NaN skipped. *)
Definition kahan_sum (vs : list float) : float :=
  (foldl kahan_step (0%float, 0%float) vs).1.

(** The corrected scores of player [p] in round [r], a missing one as
    NaN, and their sum. *)
Definition corrected_scores (df_all : list Ledger.row) (r : nat) (p : string)
    : list float :=
  (λ x, default nan (Ledger.Punkte_korr x))
    <$> filter (λ x, (Ledger.Runde x, Ledger.Spieler x) = (r, p)) df_all.
Definition round_sum (df_all : list Ledger.row) (r : nat) (p : string)
    : float :=
  kahan_sum (corrected_scores df_all r p).

(** The rounds in which player [p] has a row, in increasing order. *)
Definition rounds_of (df_all : list Ledger.row) (p : string) : list nat :=
  sort_by Nat.leb
    (remove_dups (Ledger.Runde <$> filter (λ x, Ledger.Spieler x = p) df_all)).

(** The sum of the corrected scores of player [p] over its rounds up to
    and including round [r]. *)
Definition cumulative (df_all : list Ledger.row) (p : string) (r : nat)
    : float :=
  kahan_sum ((λ r', round_sum df_all r' p)
               <$> filter (λ r', r' ≤ r) (rounds_of df_all p)).

(** The group keys of the table, in their order. *)
Definition agg_keys (df_all : list Ledger.row) : list (nat * string) :=
  sort_by key_le
    (remove_dups ((λ x, (Ledger.Runde x, Ledger.Spieler x)) <$> df_all)).

(** The running sums of [df_agg], by row and by key. *)
Definition running_sums (df_all : list Ledger.row) : list float :=
  group_cumsum ∅
    ((λ k, (k.2, round_sum df_all k.1 k.2)) <$> agg_keys df_all).
Definition cum_map (df_all : list Ledger.row) : gmap (nat * string) float :=
  list_to_map (zip (agg_keys df_all) (running_sums df_all)).

(** The cell of line [i] and column [j] of a pivot. *)
Definition cell_at (pv : pivot_table) (i j : nat) : option float :=
  row ← cells pv !! i; row !! j.

(** The columns of [df_all] that the rounds record. *)
Definition recorded (r : Ledger.row) : nat * nat * string * nat * float :=
  (Ledger.Block r, Ledger.Runde r, Ledger.Spieler r, Ledger.Platz r,
   Ledger.Punkte r).

(** Where a row of [df_all] places its player: block, global round, player
    and seat. *)
Definition placement (x : Ledger.row) : nat * nat * string * nat :=
  (Ledger.Block x, Ledger.Runde x, Ledger.Spieler x, Ledger.Platz x).

(** The placements that block [block_count] records for a seating plan of
    [n] rounds. *)
Definition block_placements (block_count n : nat) (plan : list Plan.row)
    : list (nat * nat * string * nat) :=
  (λ row, (block_count, Plan.Runde row + (block_count - 1) * n,
           Plan.Spieler row, Plan.Platz row)) <$> plan.

(** Every element of [xs] [n] times over, in the order of [xs]. *)
Definition repeat_each (n : nat) (xs : list nat) : list nat :=
  concat ((λ x, replicate n x) <$> xs).

(** Every row of the table is of one of [players], and every round of the
    table holds a row of every one of them. *)
Definition full_rounds (players : list string) (df_all : list Ledger.row)
    : Prop :=
  ∀ x, x ∈ df_all →
    Ledger.Spieler x ∈ players
    ∧ ∀ p, p ∈ players →
        ∃ z, z ∈ df_all
             ∧ Ledger.Runde z = Ledger.Runde x
             ∧ Ledger.Spieler z = p.

(** [main] has not stopped for want of fuel. *)
Definition within_fuel {A S} (outcome : result (option A * S)) : Prop :=
  match outcome with
  | Ok (None, _) => False
  | _ => True
  end.

(** ** Examples of the program's inputs *)

(** One round, seats 1, 2 and 3 with the raw scores 10, 20 and 30. *)
Definition single_round_ledger : list Ledger.row :=
  [Ledger.Row 1 1 "A" 1 10 None None;
   Ledger.Row 1 1 "B" 2 20 None None;
   Ledger.Row 1 1 "C" 3 30 None None]%string.

(** Two rounds of two players. *)
Definition two_round_ledger : list Ledger.row :=
  [Ledger.Row 1 1 "A" 1 10 None None;
   Ledger.Row 1 1 "B" 2 20 None None;
   Ledger.Row 1 2 "B" 1 15 None None;
   Ledger.Row 1 2 "A" 2 25 None None]%string.

(** Corrected scores 2, -1 and 3 of player A over three consecutive
    rounds, next to a player B. *)
Definition three_round_ledger : list Ledger.row :=
  [Ledger.Row 1 1 "A" 1 12 None (Some 2%float);
   Ledger.Row 1 1 "B" 2 8 None (Some (-2)%float);
   Ledger.Row 1 2 "B" 1 11 None (Some 1%float);
   Ledger.Row 1 2 "A" 2 9 None (Some (-1)%float);
   Ledger.Row 1 3 "A" 1 13 None (Some 3%float);
   Ledger.Row 1 3 "B" 2 7 None (Some (-3)%float)]%string.

(** A parser of the inputs of the examples. *)
Definition sample_float_of_string (s : string) : option float :=
  if decide (s = "10"%string) then Some 10%float
  else if decide (s = "30"%string) then Some 30%float
  else None.

(** The first round of a block of three players. *)
Definition sample_round_plan : list Plan.row :=
  [Plan.Row 1 1 "B" (Some 1); Plan.Row 1 2 "C" (Some 1);
   Plan.Row 1 3 "A" (Some 1)]%string.

(** A fit that returns zero as the fitted value of every row. *)
Definition zero_fit (data : list (float * nat * string))
    : result MixedLMResults :=
  Ok (Results true (Ok (replicate (length data) 0%float))).

(** The input of one block of [main]: 49 scores and the answer that ends
    the program. *)
Definition one_block_input : list string :=
  replicate 49 "10"%string ++ ["n"%string].

(** A fit that raises, as on a singular design. *)
Definition failing_fit (data : list (float * nat * string))
    : result MixedLMResults :=
  Raise LinAlgError.

(** A fit that did not converge and returns the fitted values it
    reached. *)
Definition unconverged_fit (data : list (float * nat * string))
    : result MixedLMResults :=
  Ok (Results false (Ok [12; 18; 13; 27]%float)).

(** A fit that returns with a singular covariance of the random effects:
    its fitted values cannot be read. *)
Definition singular_fit (data : list (float * nat * string))
    : result MixedLMResults :=
  Ok (Results false (Raise ValueError)).

(** A fit that returns zero as every fitted value on three rows or fewer
    and raises on a larger table. *)
Definition fit_failing_above_three (data : list (float * nat * string))
    : result MixedLMResults :=
  if decide (length data ≤ 3) then zero_fit data else Raise LinAlgError.

(** A generator whose state counts the shuffles and whose shuffle rotates
    the list by that count. *)
Definition rotating_shuffle (g : nat) (l : list nat) : list nat * nat :=
  (rotate g l, S g).

(** The players of [main]. *)
Definition main_players : list string :=
  ["A"; "B"; "C"; "D"; "E"; "F"; "G"]%string.

Section Program.

(** The state of [random]'s generator, and [random.shuffle] on a list of
    integers: it returns the shuffled list and the next generator state.
    All the program relies on is that the result is a rearrangement of
    the argument. *)
Variable rng : Type.
Variable shuffle : rng → list nat → list nat * rng.
Hypothesis shuffle_perm : ∀ g l, (shuffle g l).1 ≡ₚ l.

(** What the program's effects act on: the generator's state and the
    lines still to be read from standard input. *)
Record world : Type := World { rng_state : rng; stdin : list string }.

Definition prog (A : Type) : Type := world → result (A * world).

Definition ret_prog {A} (a : A) : prog A := λ w, Ok (a, w).
Definition bind_prog {A B} (m : prog A) (f : A → prog B) : prog B :=
  λ w, match m w with
       | Ok (a, w') => f a w'
       | Raise e => Raise e
       end.
Definition lift {A} (m : result A) : prog A :=
  λ w, match m with
       | Ok a => Ok (a, w)
       | Raise e => Raise e
       end.

Notation "x ⇐ m ; k" := (bind_prog m (λ x, k))
  (at level 20, m at level 100, k at level 200, right associativity,
   only parsing).

(** [random.shuffle(l)] *)
Definition random_shuffle (l : list nat) : prog (list nat) :=
  λ w, let '(l', g) := shuffle (rng_state w) l in
       Ok (l', World g (stdin w)).

(** [input(prompt)]: the next line of standard input. *)
Definition input : prog string :=
  λ w, match stdin w with
       | [] => Raise EOFError
       | line :: rest => Ok (line, World (rng_state w) rest)
       end.

Definition generate_random_latin_square (n : nat) : prog (list (list nat)) :=
  let L := standard_square n in
  symbol_perm ⇐ random_shuffle (seq 0 n);
  L ⇐ lift (relabel symbol_perm n L);
  col_perm ⇐ random_shuffle (seq 0 n);
  lift (permute_columns col_perm n L).

(** Lines 33-52. *)
Definition create_seating_plan (players : list string) : prog (list Plan.row) :=
  let n := length players in
  latin_sq ⇐ generate_random_latin_square n;
  plan_data ⇐ lift (plan_rows players latin_sq n);
  lift (sorted_frame plan_data).

(** [float(s)] on a string: the number, or [None] where Python raises
    [ValueError]. *)
Variable float_of_string : string → option float.

(** [mixedlm("Punkte ~ C(Platz)", data=df_all, groups=df_all["Spieler"]).fit()]:
    the linear mixed model with the seat as a categorical fixed effect and a
    random intercept per player, fitted on the rows it is given.  The fit may
    raise. *)
Variable mixedlm_fit : list (float * nat * string) → result MixedLMResults.

(** Lines 85-88. *)
Definition parse_score (eingabe : string) : float :=
  match float_of_string eingabe with
  | Some punkte => punkte
  | None => 0%float
  end.

(** [for x in xs: body] where the body has effects. *)
Fixpoint for_each_prog {A S} (xs : list A) (body : A → S → prog S) (s : S)
    : prog S :=
  match xs with
  | [] => ret_prog s
  | x :: xs => s' ⇐ body x s; for_each_prog xs body s'
  end.

(** Lines 80-89: one score per row of the round, keyed by player. *)
Definition collect_scores (round_plan : list Plan.row)
    : prog (gmap string float) :=
  for_each_prog round_plan
    (λ row punkte_dict,
       eingabe ⇐ input;
       ret_prog (<[Plan.Spieler row := parse_score eingabe]> punkte_dict))
    ∅.

(** Lines 92-100: one row appended per row of the round.  [block_count] is
    1 or more (line 63), so that the subtraction is the one of integers. *)
Definition append_scores (block_count r n : nat) (round_plan : list Plan.row)
    (punkte_dict : gmap string float) (df_all : list Ledger.row)
    : result (list Ledger.row) :=
  for_each round_plan
    (λ row df_all,
       punkte ← dict_getitem punkte_dict (Plan.Spieler row);
       Ok (df_all ++
             [Ledger.Row block_count (r + (block_count - 1) * n)
                (Plan.Spieler row) (Plan.Platz row) punkte None None]))
    df_all.

(** Lines 103-111: the correction pass.  The fit of line 105 may raise,
    and so may the read of its fitted values on line 107. *)
Definition correct (df_all : list Ledger.row) : result (list Ledger.row) :=
  if decide (2 ≤ nunique (Ledger.Runde <$> df_all)) then
    result ← mixedlm_fit (model_frame df_all);
    fitted ← fittedvalues result;
    Ok (set_korr (set_vorhergesagt fitted df_all))
  else
    Ok (naive_correction df_all).

(** Lines 80-100: the scores of a round are read and appended. *)
Definition record_round (block_count r n : nat) (round_plan : list Plan.row)
    (df_all : list Ledger.row) : prog (list Ledger.row) :=
  punkte_dict ⇐ collect_scores round_plan;
  lift (append_scores block_count r n round_plan punkte_dict df_all).

(** Lines 71-125, the body of the loop over the rounds of a block: it
    returns the table and the pivot that is plotted. *)
Definition play_round (seating_plan : list Plan.row) (block_count n r : nat)
    (df_all : list Ledger.row) : prog (list Ledger.row * pivot_table) :=
  let round_plan := filter (λ row, Plan.Runde row = r) seating_plan in
  df_all ⇐ record_round block_count r n round_plan df_all;
  df_all ⇐ lift (correct df_all);
  ret_prog (df_all, aggregate df_all).

(** Lines 63-125, one block: a fresh seating plan and its [n] rounds. *)
Definition play_block (players : list string) (block_count : nat)
    (df_all : list Ledger.row) : prog (list Ledger.row) :=
  let n := length players in
  seating_plan ⇐ create_seating_plan players;
  let seating_plan := set_block block_count seating_plan in
  for_each_prog (seq 1 n)
    (λ r df_all,
       out ⇐ play_round seating_plan block_count n r df_all;
       ret_prog out.1)
    df_all.

(** Line 128: [.strip().lower()] on the answer, with Python's notion of
    white space and of lower case. *)
Variable strip_lower : string → string.

(** Lines 61-130, the loop over the blocks.  It returns the number of
    blocks played and the table; [None] when [fuel] blocks did not reach the
    answer that ends the loop. *)
Fixpoint block_loop (fuel : nat) (players : list string) (block_count : nat)
    (df_all : list Ledger.row) : prog (option (nat * list Ledger.row)) :=
  match fuel with
  | 0 => ret_prog None
  | S fuel =>
      let block_count := block_count + 1 in
      df_all ⇐ play_block players block_count df_all;
      weitermachen ⇐ input;
      if decide (strip_lower weitermachen = "n"%string)
      then ret_prog (Some (block_count, df_all))
      else block_loop fuel players block_count df_all
  end.

(** Lines 133-142, the final analysis: the fit of line 135 and the column
    [Final_korr] of line 138, by row label, when the table has two distinct
    rounds or more, and nothing otherwise.  The fit may raise, and so may
    the read of its fitted values.  What lines 134-142 print (the summary of
    the model and the first rows of the table) is output and has no part in
    the result. *)
Definition final_analysis (df_all : list Ledger.row)
    : result (option (list (option float))) :=
  if decide (2 ≤ nunique (Ledger.Runde <$> df_all)) then
    final_model ← mixedlm_fit (model_frame df_all);
    fitted ← fittedvalues final_model;
    Ok (Some (imap (λ i r, (λ f, (Ledger.Punkte r - f)%float) <$> fitted !! i)
                df_all))
  else
    Ok None.

(** Lines 54-144. *)
Definition main (fuel : nat)
    : prog (option (nat * list Ledger.row * option (list (option float)))) :=
  out ⇐ block_loop fuel main_players 0 [];
  match out with
  | None => ret_prog None
  | Some (block_count, df_all) =>
      final_korr ⇐ lift (final_analysis df_all);
      ret_prog (Some (block_count, df_all, final_korr))
  end.

(** The exception [e] comes from the model: the fit raises it on some
    table, or it returns results whose fitted values raise it when they are
    read. *)
Definition raised_by_model (e : exn) : Prop :=
  (∃ data, mixedlm_fit data = Raise e)
  ∨ (∃ data fit, mixedlm_fit data = Ok fit ∧ fittedvalues fit = Raise e).

(** The fit returns on every table, with fitted values that can be read. *)
Definition model_returns : Prop :=
  ∀ data, ∃ fit fitted,
    mixedlm_fit data = Ok fit ∧ fittedvalues fit = Ok fitted.

(** * Proofs *)

(** ** Loops *)

Lemma getitem_Some {A} (l : list A) i x : l !! i = Some x → getitem l i = Ok x.
Proof. unfold getitem. by intros ->. Qed.

Lemma getitem_lt {A} `{!Inhabited A} (l : list A) i :
  i < length l → getitem l i = Ok (l !!! i).
Proof. intros Hi. apply getitem_Some. by apply list_lookup_lookup_total_lt. Qed.

Lemma for_each_ext {A S} (body1 body2 : A → S → result S) xs s :
  (∀ x s, x ∈ xs → body1 x s = body2 x s) →
  for_each xs body1 s = for_each xs body2 s.
Proof.
  revert s. induction xs as [|x xs IH]; intros s Hext; [done|].
  simpl. rewrite Hext by left.
  destruct (body2 x s) as [s'|e]; simpl; [|done].
  apply IH. intros y t Hy. apply Hext. by right.
Qed.

Lemma comprehension_ok {A B} (f : A → result B) (f' : A → B) xs :
  (∀ x, x ∈ xs → f x = Ok (f' x)) →
  comprehension f xs = Ok (f' <$> xs).
Proof.
  induction xs as [|x xs IH]; intros Hf; [done|].
  simpl. rewrite Hf by left. simpl.
  rewrite IH; [done|]. intros y Hy. apply Hf. by right.
Qed.

(** A loop that extends a list by what each pass computes collects the
    passes' results in order. *)
Lemma for_each_extend {A B} (f : A → result (list B)) xs (acc : list B) :
  for_each xs (λ x acc, ys ← f x; Ok (acc ++ ys)) acc
  = yss ← comprehension f xs; Ok (acc ++ concat yss).
Proof.
  revert acc. induction xs as [|x xs IH]; intros acc; simpl.
  - by rewrite app_nil_r.
  - destruct (f x) as [ys|e]; simpl; [|done].
    rewrite IH. destruct (comprehension f xs) as [yss|e]; simpl; [|done].
    by rewrite <-app_assoc.
Qed.

Lemma for_each_append {A B} (f : A → result B) xs (acc : list B) :
  for_each xs (λ x acc, y ← f x; Ok (acc ++ [y])) acc
  = ys ← comprehension f xs; Ok (acc ++ ys).
Proof.
  revert acc. induction xs as [|x xs IH]; intros acc; simpl.
  - by rewrite app_nil_r.
  - destruct (f x) as [y|e]; simpl; [|done].
    rewrite IH. destruct (comprehension f xs) as [ys|e]; simpl; [|done].
    by rewrite <-app_assoc.
Qed.

(** A loop over the positions of a list that overwrites each position by a
    function of what it holds maps the function over the list. *)
Lemma for_each_update_from {A} (body : nat → list A → result (list A))
    (g : A → A) (xs : list A) len start :
  start + len = length xs →
  (∀ k cur x, xs !! k = Some x → cur !! k = Some x →
     body k cur = Ok (<[k := g x]> cur)) →
  for_each (seq start len) body ((g <$> take start xs) ++ drop start xs)
  = Ok (g <$> xs).
Proof.
  intros Hlen Hbody. revert start Hlen.
  induction len as [|len IH]; intros start Hlen; simpl.
  - rewrite take_ge, drop_ge by lia. by rewrite app_nil_r.
  - destruct (lookup_lt_is_Some_2 xs start) as [x Hx]; [lia|].
    assert (length (g <$> take start xs) = start) as Hpre.
    { rewrite length_fmap, length_take. lia. }
    rewrite (Hbody start _ x Hx); simpl.
    + rewrite insert_app_r_alt by lia.
      rewrite Hpre, Nat.sub_diag.
      rewrite (drop_S _ _ _ Hx). simpl.
      replace (g <$> take start xs) with (take start (g <$> xs))
        by by rewrite fmap_take.
      rewrite cons_middle, app_assoc.
      replace (take start (g <$> xs) ++ [g x]) with (g <$> take (S start) xs).
      * apply IH. lia.
      * rewrite (take_S_r _ _ _ Hx), fmap_app. by rewrite fmap_take.
    + rewrite lookup_app_r by lia.
      rewrite Hpre, Nat.sub_diag, lookup_drop, Nat.add_0_r. done.
Qed.

Lemma for_each_update {A} (body : nat → list A → result (list A))
    (g : A → A) (xs : list A) :
  (∀ k cur x, xs !! k = Some x → cur !! k = Some x →
     body k cur = Ok (<[k := g x]> cur)) →
  for_each (seq 0 (length xs)) body xs = Ok (g <$> xs).
Proof.
  intros Hbody.
  by apply (for_each_update_from body g xs (length xs) 0).
Qed.

(** ** The design generator *)

Lemma relabel_cell_Some symbol_perm i j (L : list (list nat)) row :
  L !! i = Some row →
  relabel_cell symbol_perm i j L
  = x ← getitem row j; v ← getitem symbol_perm x; Ok (<[i := <[j := v]> row]> L).
Proof. intros HL. unfold relabel_cell. by rewrite (getitem_Some _ _ _ HL). Qed.

(** A loop over the cells of row [i] of [L] is a loop over that row. *)
Lemma relabel_cell_row symbol_perm i js (L : list (list nat)) row :
  L !! i = Some row →
  for_each js (λ j L, relabel_cell symbol_perm i j L) L
  = row' ← for_each js
             (λ j row, x ← getitem row j; v ← getitem symbol_perm x;
                       Ok (<[j := v]> row)) row;
    Ok (<[i := row']> L).
Proof.
  revert L row. induction js as [|j js IH]; intros L row HL; simpl.
  - by rewrite list_insert_id.
  - rewrite (relabel_cell_Some _ _ _ _ _ HL).
    destruct (getitem row j) as [x|e]; simpl; [|done].
    destruct (getitem symbol_perm x) as [v|e]; simpl; [|done].
    rewrite (IH _ (<[j := v]> row)).
    + destruct (for_each js _ (<[j:=v]> row)) as [row'|e]; simpl; [|done].
      by rewrite list_insert_insert_eq.
    + apply list_lookup_insert_eq. by eapply lookup_lt_Some.
Qed.

Lemma relabel_row symbol_perm (row : list nat) :
  Forall (λ x, x < length symbol_perm) row →
  for_each (seq 0 (length row))
    (λ j row, x ← getitem row j; v ← getitem symbol_perm x; Ok (<[j := v]> row))
    row
  = Ok ((symbol_perm !!!.) <$> row).
Proof.
  intros Hrow. apply for_each_update. intros j cur x Hx Hcur.
  rewrite (getitem_Some _ _ _ Hcur). simpl.
  rewrite Forall_lookup in Hrow. specialize (Hrow _ _ Hx).
  by rewrite getitem_lt.
Qed.

Lemma relabel_ok symbol_perm n (L : list (list nat)) :
  length L = n →
  Forall (λ row, length row = n ∧ Forall (λ x, x < length symbol_perm) row) L →
  relabel symbol_perm n L
  = Ok ((λ row : list nat, (symbol_perm !!!.) <$> row) <$> L).
Proof.
  intros <- HL. unfold relabel. apply for_each_update.
  intros i cur row Hrow Hcur.
  rewrite Forall_lookup in HL. destruct (HL _ _ Hrow) as [Hlen Hlt].
  rewrite (relabel_cell_row _ _ _ _ row Hcur).
  rewrite <-Hlen, relabel_row by done. done.
Qed.

Lemma permute_columns_ok col_perm n (L : list (list nat)) :
  length L = n →
  Forall (λ row, Forall (λ c, c < length row) col_perm) L →
  permute_columns col_perm n L = Ok ((λ row, (row !!!.) <$> col_perm) <$> L).
Proof.
  intros <- HL. unfold permute_columns. rewrite for_each_append.
  rewrite (comprehension_ok _ (λ i, ((L !!! i) !!!.) <$> col_perm)).
  - simpl. f_equal. apply list_eq. intros i.
    rewrite !list_lookup_fmap.
    destruct (decide (i < length L)) as [Hi|Hi].
    + rewrite lookup_seq_lt by done. simpl.
      by rewrite list_lookup_lookup_total_lt.
    + by rewrite lookup_seq_ge, lookup_ge_None_2 by lia.
  - intros i Hi. apply elem_of_seq in Hi.
    assert (L !! i = Some (L !!! i)) as HLi
      by (apply list_lookup_lookup_total_lt; lia).
    apply comprehension_ok. intros c Hc.
    rewrite (getitem_Some _ _ _ HLi). simpl.
    rewrite Forall_lookup in HL. specialize (HL _ _ HLi).
    rewrite Forall_forall in HL.
    by rewrite getitem_lt by auto.
Qed.

(** A list of [n] different numbers below [n] is a rearrangement of
    [0 .. n-1]. *)
Lemma NoDup_below_Permutation (l : list nat) n :
  NoDup l → Forall (λ x, x < n) l → length l = n → l ≡ₚ seq 0 n.
Proof.
  intros Hnd Hlt Hlen. apply submseteq_length_Permutation.
  - apply NoDup_submseteq; [done|]. intros x Hx.
    rewrite Forall_forall in Hlt. apply elem_of_seq. specialize (Hlt x Hx). lia.
  - rewrite length_seq. lia.
Qed.

Lemma Permutation_seq_below (l : list nat) n :
  l ≡ₚ seq 0 n → length l = n ∧ Forall (λ x, x < n) l.
Proof.
  intros Hl. split.
  - by rewrite Hl, length_seq.
  - rewrite Hl. apply Forall_forall. intros x Hx%elem_of_seq. lia.
Qed.

Lemma add_mod_inj n i x y :
  x < n → y < n → (i + x) mod n = (i + y) mod n → x = y.
Proof.
  intros Hx Hy Heq.
  pose proof (Nat.div_mod_eq (i + x) n) as Hdx.
  pose proof (Nat.div_mod_eq (i + y) n) as Hdy.
  rewrite Heq in Hdx.
  set (q1 := (i + x) / n) in *. set (q2 := (i + y) / n) in *.
  set (m := (i + y) mod n) in *. clearbody q1 q2 m.
  destruct (Nat.lt_trichotomy q1 q2) as [Hq|[Hq|Hq]]; [|subst; lia|].
  - assert (n * q1 + n ≤ n * q2) by nia. lia.
  - assert (n * q2 + n ≤ n * q1) by nia. lia.
Qed.

(** Every row of the cyclic square is a rearrangement of [0 .. n-1], and
    so is every column, which holds the same numbers as a row. *)
Lemma cyclic_row_Permutation n i :
  (λ j, (i + j) mod n) <$> seq 0 n ≡ₚ seq 0 n.
Proof.
  apply NoDup_below_Permutation.
  - apply NoDup_fmap_2_strong; [|apply NoDup_seq].
    intros x y Hx%elem_of_seq Hy%elem_of_seq. apply add_mod_inj; lia.
  - apply Forall_fmap, Forall_forall. intros j Hj%elem_of_seq. simpl.
    apply Nat.mod_upper_bound. lia.
  - by rewrite length_fmap, length_seq.
Qed.

Lemma cyclic_column_Permutation n j :
  (λ i, (i + j) mod n) <$> seq 0 n ≡ₚ seq 0 n.
Proof.
  rewrite <-(cyclic_row_Permutation n j) at 2.
  erewrite list_fmap_ext; [done|]. intros _ i _. simpl. by rewrite Nat.add_comm.
Qed.

Lemma fmap_lookup_total_seq {A} `{!Inhabited A} (l : list A) :
  (l !!!.) <$> seq 0 (length l) = l.
Proof.
  apply list_eq. intros i. rewrite list_lookup_fmap.
  destruct (decide (i < length l)) as [Hi|Hi].
  - rewrite lookup_seq_lt by done. simpl.
    by rewrite list_lookup_lookup_total_lt.
  - by rewrite lookup_seq_ge, lookup_ge_None_2 by lia.
Qed.

(** Reading a rearrangement of [0 .. n-1] through a list of length [n]
    rearranges that list. *)
Lemma fmap_lookup_total_Permutation {A} `{!Inhabited A} (l : list A) p :
  p ≡ₚ seq 0 (length l) → (l !!!.) <$> p ≡ₚ l.
Proof. intros ->. by rewrite fmap_lookup_total_seq. Qed.

Lemma standard_square_length n : length (standard_square n) = n.
Proof. unfold standard_square. by rewrite length_fmap, length_seq. Qed.

Lemma standard_square_lookup n i :
  i < n →
  standard_square n !! i = Some ((λ j, (i + j) mod n) <$> seq 0 n).
Proof.
  intros Hi. unfold standard_square.
  by rewrite list_lookup_fmap, lookup_seq_lt.
Qed.

Lemma generate_random_latin_square_run n w :
  let s1 := shuffle (rng_state w) (seq 0 n) in
  let s2 := shuffle s1.2 (seq 0 n) in
  generate_random_latin_square n w
  = Ok (shuffled_square s1.1 s2.1 n, World s2.2 (stdin w)).
Proof.
  intros s1 s2. unfold generate_random_latin_square, bind_prog.
  unfold random_shuffle at 1. fold s1.
  pose proof (shuffle_perm (rng_state w) (seq 0 n)) as Hp1. fold s1 in Hp1.
  pose proof (shuffle_perm s1.2 (seq 0 n)) as Hp2. fold s2 in Hp2.
  destruct s1 as [sp g1] eqn:Hs1. simpl in *.
  apply Permutation_seq_below in Hp1 as [Hlen1 Hlt1].
  apply Permutation_seq_below in Hp2 as [Hlen2 Hlt2].
  unfold lift at 1. rewrite (relabel_ok sp n).
  - unfold random_shuffle. simpl. fold s2.
    destruct s2 as [cp g2] eqn:Hs2. simpl in *.
    unfold lift. rewrite (permute_columns_ok cp n); [done| |].
    + by rewrite length_fmap, standard_square_length.
    + apply Forall_fmap, Forall_forall. intros row Hrow. simpl.
      apply list_elem_of_lookup in Hrow as [i Hi].
      pose proof (lookup_lt_Some _ _ _ Hi) as Hlt.
      rewrite standard_square_length in Hlt.
      rewrite standard_square_lookup in Hi by done. injection Hi as <-.
      by rewrite !length_fmap, length_seq.
  - apply standard_square_length.
  - apply Forall_forall. intros row Hrow.
    apply list_elem_of_lookup in Hrow as [i Hi].
    pose proof (lookup_lt_Some _ _ _ Hi) as Hlt.
    rewrite standard_square_length in Hlt.
    rewrite standard_square_lookup in Hi by done. injection Hi as <-.
    split; [by rewrite length_fmap, length_seq|].
    apply Forall_fmap, Forall_forall. intros j Hj%elem_of_seq. simpl.
    rewrite Hlen1. apply Nat.mod_upper_bound. lia.
Qed.

Lemma lookup_total_fmap_nat (f : nat → nat) (l : list nat) i :
  i < length l → (f <$> l) !!! i = f (l !!! i).
Proof. apply list_lookup_total_fmap. Qed.

Lemma shuffled_square_eq symbol_perm col_perm n :
  Forall (λ c, c < n) col_perm →
  shuffled_square symbol_perm col_perm n
  = (λ i, (λ c, symbol_perm !!! ((i + c) mod n)) <$> col_perm) <$> seq 0 n.
Proof.
  intros Hcp. unfold shuffled_square, standard_square.
  rewrite <-!list_fmap_compose. apply list_fmap_ext. intros _ i _. simpl.
  apply list_fmap_ext. intros _ c Hc%list_elem_of_lookup_2. simpl.
  rewrite Forall_forall in Hcp. specialize (Hcp c Hc).
  rewrite 2!lookup_total_fmap_nat by (by rewrite ?length_fmap, length_seq).
  by rewrite lookup_total_seq_lt.
Qed.

Lemma shuffled_square_row symbol_perm col_perm n i :
  symbol_perm ≡ₚ seq 0 n → col_perm ≡ₚ seq 0 n →
  (λ c, symbol_perm !!! ((i + c) mod n)) <$> col_perm ≡ₚ seq 0 n.
Proof.
  intros Hsp Hcp. rewrite Hcp.
  trans ((symbol_perm !!!.) <$> ((λ c, (i + c) mod n) <$> seq 0 n)).
  { by rewrite <-list_fmap_compose. }
  rewrite cyclic_row_Permutation.
  apply Permutation_seq_below in Hsp as Hsp'. destruct Hsp' as [<- _].
  by rewrite fmap_lookup_total_seq.
Qed.

Lemma shuffled_square_column symbol_perm col_perm n j :
  symbol_perm ≡ₚ seq 0 n → col_perm ≡ₚ seq 0 n → j < n →
  ∃ col, column j (shuffled_square symbol_perm col_perm n) = Some col
         ∧ col ≡ₚ seq 0 n.
Proof.
  intros Hsp Hcp Hj.
  apply Permutation_seq_below in Hcp as [Hclen Hclt].
  exists ((λ i, symbol_perm !!! ((i + col_perm !!! j) mod n)) <$> seq 0 n).
  split.
  - rewrite shuffled_square_eq by done. unfold column.
    apply mapM_Some_2, Forall2_fmap, Forall_Forall2_diag, Forall_forall.
    intros i _. rewrite list_lookup_fmap.
    by rewrite list_lookup_lookup_total_lt by lia.
  - trans ((symbol_perm !!!.)
             <$> ((λ i, (i + col_perm !!! j) mod n) <$> seq 0 n)).
    { by rewrite <-list_fmap_compose. }
    rewrite cyclic_column_Permutation.
    apply Permutation_seq_below in Hsp as Hsp'. destruct Hsp' as [<- _].
    by rewrite fmap_lookup_total_seq.
Qed.

(** C1.  For every [n], the degenerate [n = 1] (and [n = 0]) included, and
    whatever the two shuffles draw, the generator returns without raising,
    and what it returns is an [n]-by-[n] matrix of which every row and every
    column is a rearrangement of [0 .. n-1]. *)
Theorem generate_random_latin_square_latin n w :
  ∃ L w',
    generate_random_latin_square n w = Ok (L, w')
    ∧ length L = n
    ∧ (∀ row, row ∈ L → row ≡ₚ seq 0 n)
    ∧ (∀ j, j < n → ∃ col, column j L = Some col ∧ col ≡ₚ seq 0 n).
Proof.
  eexists _, _. split; [apply generate_random_latin_square_run|].
  pose proof (shuffle_perm (rng_state w) (seq 0 n)) as Hsp.
  pose proof (shuffle_perm (shuffle (rng_state w) (seq 0 n)).2 (seq 0 n)) as Hcp.
  simpl. split; [|split].
  - unfold shuffled_square. by rewrite !length_fmap, standard_square_length.
  - intros row Hrow.
    rewrite shuffled_square_eq in Hrow
      by by apply Permutation_seq_below in Hcp as [_ ?].
    apply list_elem_of_fmap in Hrow as (i & -> & _).
    by apply shuffled_square_row.
  - intros j Hj. by apply shuffled_square_column.
Qed.

(** ** Sorted lists and groups *)

Lemma StronglySorted_fmap_seq {A} (R : relation A) (f : nat → A) a m :
  (∀ i j, a ≤ i → i < j → j < a + m → R (f i) (f j)) →
  StronglySorted R (f <$> seq a m).
Proof.
  revert a. induction m as [|m IH]; intros a Hf; simpl; constructor.
  - apply IH. intros i j ???. apply Hf; lia.
  - apply Forall_fmap, Forall_forall. intros j Hj%elem_of_seq. simpl.
    apply Hf; lia.
Qed.

Lemma StronglySorted_concat_fmap_seq {A} (R : relation A)
    (g : nat → list A) a m :
  (∀ i, a ≤ i → i < a + m → StronglySorted R (g i)) →
  (∀ i j x y, a ≤ i → i < j → j < a + m → x ∈ g i → y ∈ g j → R x y) →
  StronglySorted R (concat (g <$> seq a m)).
Proof.
  revert a. induction m as [|m IH]; intros a Hin Hcross; simpl.
  - constructor.
  - apply StronglySorted_app_2.
    + intros x y Hx Hy. apply list_elem_of_In, in_concat in Hy as (l & Hl & Hy).
      apply list_elem_of_In, list_elem_of_fmap in Hl as (j & -> & Hj%elem_of_seq).
      apply (Hcross a j); [lia..|done|by apply list_elem_of_In].
    + apply Hin; lia.
    + apply IH.
      * intros i ??. apply Hin; lia.
      * intros i j x y ???. apply Hcross; lia.
Qed.

Lemma StronglySorted_impl {A} (R1 R2 : relation A) l :
  (∀ x y, R1 x y → R2 x y) → StronglySorted R1 l → StronglySorted R2 l.
Proof.
  intros HR. induction 1 as [|x l ? IH Hx]; constructor; [done|].
  eapply Forall_impl; [exact Hx|]. auto.
Qed.

(** Sorting a sorted list leaves it as it is. *)
Lemma sort_by_sorted {A} (le : A → A → bool) l :
  StronglySorted (λ x y, le x y = true) l → sort_by le l = l.
Proof.
  induction 1 as [|x l Hl IH Hx]; [done|].
  unfold sort_by in *. simpl. rewrite IH.
  destruct l as [|y l]; [done|]. simpl.
  apply Forall_cons_1 in Hx as [-> _]. done.
Qed.

Lemma filter_concat {A} (P : A → Prop) `{∀ x, Decision (P x)} (ls : list (list A)) :
  filter P (concat ls) = concat (filter P <$> ls).
Proof.
  induction ls as [|l ls IH]; [done|]. simpl. by rewrite filter_app, IH.
Qed.

Lemma concat_fmap_singleton {A B} (f : A → B) l :
  concat ((λ x, [f x]) <$> l) = f <$> l.
Proof. induction l as [|x l IH]; [done|]. simpl. by f_equal. Qed.

Lemma concat_fmap_seq_nil {A} (g : nat → list A) a m :
  (∀ i, a ≤ i → i < a + m → g i = []) → concat (g <$> seq a m) = [].
Proof.
  revert a. induction m as [|m IH]; intros a Hg; [done|]. simpl.
  rewrite Hg by lia. simpl. apply IH. intros i ??. apply Hg; lia.
Qed.

(** When one block only is not empty, the concatenation is that block. *)
Lemma concat_fmap_seq_single {A} (g : nat → list A) a m k :
  a ≤ k → k < a + m →
  (∀ i, a ≤ i → i < a + m → i ≠ k → g i = []) →
  concat (g <$> seq a m) = g k.
Proof.
  revert a. induction m as [|m IH]; intros a Hak Hkm Hg; [lia|]. simpl.
  destruct (decide (a = k)) as [->|Hne].
  - rewrite concat_fmap_seq_nil; [by rewrite app_nil_r|].
    intros i ??. apply Hg; lia.
  - rewrite (Hg a) by lia. simpl. apply IH; [lia..|].
    intros i ???. apply Hg; lia.
Qed.

Lemma filter_fmap_seq_single {A} (P : A → Prop) `{∀ x, Decision (P x)}
    (f : nat → A) a m k :
  a ≤ k → k < a + m →
  (∀ i, a ≤ i → i < a + m → (P (f i) ↔ i = k)) →
  filter P (f <$> seq a m) = [f k].
Proof.
  intros Hak Hkm HP.
  rewrite <-(concat_fmap_singleton f), filter_concat, <-list_fmap_compose.
  rewrite (concat_fmap_seq_single _ a m k); [| done | done |].
  - simpl. rewrite filter_cons_True; [done|]. by apply HP.
  - intros i ?? Hne. simpl. rewrite filter_cons_False; [done|].
    rewrite HP by done. done.
Qed.

Lemma filter_all {A} (P : A → Prop) `{∀ x, Decision (P x)} l :
  Forall P l → filter P l = l.
Proof.
  induction 1 as [|x l Hx Hl IH]; [done|].
  by rewrite filter_cons_True, IH.
Qed.

Lemma filter_none {A} (P : A → Prop) `{∀ x, Decision (P x)} l :
  Forall (λ x, ¬ P x) l → filter P l = [].
Proof.
  induction 1 as [|x l Hx Hl IH]; [done|].
  by rewrite filter_cons_False.
Qed.

(** ** The seating plan builder *)

Lemma plan_rows_ok players (latin_sq : list (list nat)) n :
  length latin_sq = n →
  Forall (λ row, length row = n ∧ Forall (λ x, x < length players) row)
    latin_sq →
  plan_rows players latin_sq n = Ok (seating_of players latin_sq n).
Proof.
  intros Hlen Hrows. unfold plan_rows.
  set (cell := λ r seat,
         row ← getitem latin_sq r;
         player_idx ← getitem row seat;
         player ← getitem players player_idx;
         Ok (Plan.Row (r + 1) (seat + 1) player None)).
  rewrite (for_each_ext _
             (λ r acc, ys ← comprehension (cell r) (seq 0 n); Ok (acc ++ ys))).
  - rewrite for_each_extend.
    rewrite (comprehension_ok _
               (λ r, (λ seat, Plan.Row (r + 1) (seat + 1)
                                (players !!! ((latin_sq !!! r) !!! seat)) None)
                       <$> seq 0 n)); [done|].
    intros r Hr%elem_of_seq. apply comprehension_ok.
    intros seat Hseat%elem_of_seq. unfold cell.
    assert (latin_sq !! r = Some (latin_sq !!! r)) as Hrow
      by (apply list_lookup_lookup_total_lt; lia).
    rewrite Forall_lookup in Hrows. destruct (Hrows _ _ Hrow) as [Hrl Hlt].
    rewrite (getitem_Some _ _ _ Hrow). simpl.
    rewrite getitem_lt by lia. simpl.
    rewrite getitem_lt; [done|].
    rewrite Forall_lookup in Hlt. apply (Hlt seat).
    apply list_lookup_lookup_total_lt. lia.
  - intros r acc _.
    rewrite (for_each_ext _ (λ seat acc, y ← cell r seat; Ok (acc ++ [y]))).
    + apply for_each_append.
    + intros seat pd _. unfold cell.
      destruct (getitem latin_sq r) as [row|e]; simpl; [|done].
      destruct (getitem row seat) as [idx|e]; simpl; [|done].
      by destruct (getitem players idx).
Qed.

Lemma seating_of_length players latin_sq n :
  length (seating_of players latin_sq n) = n * n.
Proof.
  unfold seating_of.
  assert (∀ a m, length (concat
            ((λ r, (λ seat, Plan.Row (r + 1) (seat + 1)
                      (players !!! ((latin_sq !!! r) !!! seat)) None)
                   <$> seq 0 n) <$> seq a m)) = m * n) as Hgen.
  { intros a m. revert a. induction m as [|m IH]; intros a; [done|].
    simpl. rewrite length_app, length_fmap, length_seq, IH. done. }
  apply Hgen.
Qed.

Lemma seating_of_elem players latin_sq n row :
  row ∈ seating_of players latin_sq n ↔
  ∃ r seat, r < n ∧ seat < n
    ∧ row = Plan.Row (r + 1) (seat + 1)
              (players !!! ((latin_sq !!! r) !!! seat)) None.
Proof.
  unfold seating_of. rewrite list_elem_of_In, in_concat. split.
  - intros (l & Hl & Hrow).
    apply list_elem_of_In, list_elem_of_fmap in Hl as (r & -> & Hr%elem_of_seq).
    apply list_elem_of_In, list_elem_of_fmap in Hrow
      as (seat & -> & Hseat%elem_of_seq).
    exists r, seat. split_and!; [lia..|done].
  - intros (r & seat & Hr & Hseat & ->). eexists. split.
    + apply list_elem_of_In, list_elem_of_fmap. exists r. split; [done|].
      apply elem_of_seq. lia.
    + apply list_elem_of_In, list_elem_of_fmap. exists seat. split; [done|].
      apply elem_of_seq. lia.
Qed.

Lemma seating_of_sorted players latin_sq n :
  StronglySorted plan_lt (seating_of players latin_sq n).
Proof.
  unfold seating_of. apply StronglySorted_concat_fmap_seq.
  - intros r _ _. apply StronglySorted_fmap_seq.
    intros i j ???. right. simpl. lia.
  - intros i j x y ???.
    intros (s1 & -> & _)%list_elem_of_fmap (s2 & -> & _)%list_elem_of_fmap.
    left. simpl. lia.
Qed.

Lemma plan_lt_le a b : plan_lt a b → plan_le a b = true.
Proof.
  unfold plan_lt, plan_le. intros [Hlt|[Heq Hlt]].
  - apply Nat.ltb_lt in Hlt. by rewrite Hlt.
  - apply Nat.eqb_eq in Heq. apply Nat.lt_le_incl, Nat.leb_le in Hlt.
    rewrite Heq, Hlt. by rewrite orb_true_r.
Qed.

(** The rows of round [r + 1]: one per seat, in the order of the seats. *)
Lemma seating_of_round players latin_sq n r :
  r < n →
  filter (λ row, Plan.Runde row = r + 1) (seating_of players latin_sq n)
  = (λ seat, Plan.Row (r + 1) (seat + 1)
               (players !!! ((latin_sq !!! r) !!! seat)) None) <$> seq 0 n.
Proof.
  intros Hr. unfold seating_of.
  rewrite filter_concat, <-list_fmap_compose.
  rewrite (concat_fmap_seq_single _ 0 n r); [|lia..|].
  - simpl. apply filter_all, Forall_fmap, Forall_forall. by intros seat _.
  - intros i ?? Hne. simpl. apply filter_none, Forall_fmap, Forall_forall.
    intros seat _. simpl. lia.
Qed.

(** The rows of seat [seat + 1]: one per round, in the order of the
    rounds. *)
Lemma seating_of_seat players latin_sq n seat :
  seat < n →
  filter (λ row, Plan.Platz row = seat + 1) (seating_of players latin_sq n)
  = (λ r, Plan.Row (r + 1) (seat + 1)
            (players !!! ((latin_sq !!! r) !!! seat)) None) <$> seq 0 n.
Proof.
  intros Hseat. unfold seating_of.
  rewrite filter_concat, <-list_fmap_compose.
  etrans; [|apply concat_fmap_singleton]. f_equal.
  apply list_fmap_ext. intros _ r _. simpl.
  apply (filter_fmap_seq_single _
           (λ seat, Plan.Row (r + 1) (seat + 1)
                      (players !!! ((latin_sq !!! r) !!! seat)) None)
           0 n seat); [lia..|].
  intros i ??. simpl. lia.
Qed.

Lemma shuffled_square_rows symbol_perm col_perm n :
  symbol_perm ≡ₚ seq 0 n → col_perm ≡ₚ seq 0 n →
  length (shuffled_square symbol_perm col_perm n) = n
  ∧ Forall (λ row, row ≡ₚ seq 0 n) (shuffled_square symbol_perm col_perm n).
Proof.
  intros Hsp Hcp. split.
  - unfold shuffled_square. by rewrite !length_fmap, standard_square_length.
  - rewrite shuffled_square_eq
      by by apply Permutation_seq_below in Hcp as [_ ?].
    apply Forall_fmap, Forall_forall. intros i _. simpl.
    by apply shuffled_square_row.
Qed.

Lemma sorted_frame_seating_of players latin_sq n :
  1 ≤ n →
  sorted_frame (seating_of players latin_sq n)
  = Ok (seating_of players latin_sq n).
Proof.
  intros Hn. unfold sorted_frame.
  pose proof (seating_of_length players latin_sq n) as Hlen.
  destruct (seating_of players latin_sq n) as [|row plan] eqn:Heq.
  { simpl in Hlen. nia. }
  rewrite <-Heq. f_equal. apply sort_by_sorted.
  eapply StronglySorted_impl; [|apply seating_of_sorted].
  apply plan_lt_le.
Qed.

(** A run of the builder on a non-empty list of players, in terms of the
    two shuffles its generator draws. *)
Lemma create_seating_plan_run players w :
  1 ≤ length players →
  let n := length players in
  let s1 := shuffle (rng_state w) (seq 0 n) in
  let s2 := shuffle s1.2 (seq 0 n) in
  create_seating_plan players w
  = Ok (seating_of players (shuffled_square s1.1 s2.1 n) n,
        World s2.2 (stdin w)).
Proof.
  intros Hn n s1 s2. unfold create_seating_plan, bind_prog. fold n.
  rewrite generate_random_latin_square_run. fold s1 s2.
  destruct (shuffled_square_rows s1.1 s2.1 n) as [Hlen Hrows];
    [apply shuffle_perm..|].
  unfold lift at 1. rewrite plan_rows_ok; [|done|].
  - unfold lift. by rewrite sorted_frame_seating_of.
  - eapply Forall_impl; [exact Hrows|]. intros row Hrow. simpl in Hrow.
    by apply Permutation_seq_below in Hrow.
Qed.

(** C5.  For a non-empty list of [n] players the builder returns a plan of
    [n * n] rows whose rounds and seats are numbered from 1 to [n], in
    increasing order of round and, within a round, of seat; the rows of a
    round hold the seats 1 to [n] once each, and the rows of a seat hold the
    rounds 1 to [n] once each. *)
Theorem create_seating_plan_rows players w :
  1 ≤ length players →
  ∃ plan w',
    create_seating_plan players w = Ok (plan, w')
    ∧ length plan = length players * length players
    ∧ (∀ row, row ∈ plan →
         1 ≤ Plan.Runde row ≤ length players
         ∧ 1 ≤ Plan.Platz row ≤ length players)
    ∧ StronglySorted plan_lt plan
    ∧ (∀ r, 1 ≤ r ≤ length players →
         Plan.Platz <$> filter (λ row, Plan.Runde row = r) plan
         = seq 1 (length players))
    ∧ (∀ seat, 1 ≤ seat ≤ length players →
         Plan.Runde <$> filter (λ row, Plan.Platz row = seat) plan
         = seq 1 (length players)).
Proof.
  intros Hn. eexists _, _.
  split; [by apply create_seating_plan_run|].
  split; [apply seating_of_length|].
  split; [|split; [apply seating_of_sorted|split]].
  - intros row (r & seat & Hr & Hseat & ->)%seating_of_elem. simpl. lia.
  - intros r Hr. replace r with ((r - 1) + 1) by lia.
    rewrite seating_of_round by lia.
    rewrite <-list_fmap_compose, <-fmap_S_seq.
    apply list_fmap_ext. intros _ seat _. simpl. lia.
  - intros seat Hseat. replace seat with ((seat - 1) + 1) by lia.
    rewrite seating_of_seat by lia.
    rewrite <-list_fmap_compose, <-fmap_S_seq.
    apply list_fmap_ext. intros _ r _. simpl. lia.
Qed.

(** ** Grouping *)

Lemma groupby_fold_acc `{Countable K} {V A} (step : A → V → A) (init : A)
    (kvs : list (K * V)) (acc : gmap K A) k :
  foldl (λ acc kv, <[kv.1 := step (default init (acc !! kv.1)) kv.2]> acc)
    acc kvs !! k
  = match snd <$> filter (λ kv, kv.1 = k) kvs with
    | [] => acc !! k
    | vs => Some (foldl step (default init (acc !! k)) vs)
    end.
Proof.
  revert acc. induction kvs as [|[k' v] kvs IH]; intros acc; [done|].
  simpl. rewrite IH. rewrite filter_cons. simpl.
  destruct (decide (k' = k)) as [->|Hne]; simpl.
  - rewrite lookup_insert_eq. simpl.
    change (list_fmap _ _ snd ?l) with (snd <$> l).
    by destruct (snd <$> filter (λ kv, kv.1 = k) kvs).
  - by rewrite lookup_insert_ne.
Qed.

(** The accumulator of a group is the fold of the group's values, in the
    order of the rows. *)
Lemma groupby_fold_lookup `{Countable K} {V A} (step : A → V → A) (init : A)
    (kvs : list (K * V)) k v :
  (k, v) ∈ kvs →
  groupby_fold step init kvs !! k
  = Some (foldl step init (snd <$> filter (λ kv, kv.1 = k) kvs)).
Proof.
  intros Hk. unfold groupby_fold. rewrite groupby_fold_acc.
  assert ((k, v) ∈ filter (λ kv, kv.1 = k) kvs) as Hin
    by by apply list_elem_of_filter.
  destruct (filter (λ kv, kv.1 = k) kvs) as [|kv l]; [by inv Hin|].
  done.
Qed.

Lemma groupby_fold_lookup_None `{Countable K} {V A} (step : A → V → A)
    (init : A) (kvs : list (K * V)) k :
  k ∉ kvs.*1 → groupby_fold step init kvs !! k = None.
Proof.
  intros Hk. unfold groupby_fold. rewrite groupby_fold_acc.
  rewrite filter_none; [done|].
  apply Forall_forall. intros [k' v] Hin Heq. simpl in Heq. subst k'.
  apply Hk.
  apply list_elem_of_fmap. by exists (k, v).
Qed.

(** The values of the rows of a group. *)
Lemma group_values `{EqDecision K} {R V} (key : R → K) (val : R → V) k
    (l : list R) :
  snd <$> filter (λ kv, kv.1 = k) ((λ r, (key r, val r)) <$> l)
  = val <$> filter (λ r, key r = k) l.
Proof.
  induction l as [|x l IH]; [done|].
  rewrite fmap_cons, !filter_cons. change ((key x, val x).1) with (key x).
  destruct (decide (key x = k)); [|done].
  by rewrite !fmap_cons, IH.
Qed.

Lemma foldl_mean_step s c vs :
  foldl mean_step (s, c) vs
  = (foldl nan_skip_add s vs, c + nancount vs).
Proof.
  revert s c. induction vs as [|v vs IH]; intros s c; simpl.
  - by rewrite Nat.add_0_r.
  - unfold mean_step at 2, nan_skip_add at 2, nancount.
    rewrite filter_cons. destruct (is_nan v) eqn:Hv; simpl.
    + apply IH.
    + rewrite IH. f_equal. unfold nancount. lia.
Qed.

Lemma mean_of_foldl vs : mean_of (foldl mean_step (0%float, 0) vs) = mean vs.
Proof. by rewrite foldl_mean_step. Qed.

(** ** The correction engine *)

Lemma naive_correction_fmap df_all :
  naive_correction df_all
  = (λ r, Ledger.Row (Ledger.Block r) (Ledger.Runde r) (Ledger.Spieler r)
            (Ledger.Platz r) (Ledger.Punkte r) (Ledger.Punkte_vorhergesagt r)
            (Some (Ledger.Punkte r
                   - mean (Ledger.Punkte
                             <$> filter (λ x, Ledger.Platz x = Ledger.Platz r)
                                   df_all))%float))
      <$> df_all.
Proof.
  unfold naive_correction, transform_mean.
  rewrite <-list_fmap_compose, zip_with_fmap_r, zip_with_diag.
  apply list_fmap_ext. intros _ r Hr%list_elem_of_lookup_2. simpl.
  do 2 f_equal.
  rewrite (groupby_fold_lookup _ _ _ _ (Ledger.Punkte r)).
  - simpl. by rewrite mean_of_foldl, group_values.
  - apply list_elem_of_fmap. by exists r.
Qed.

Lemma correct_naive df_all :
  nunique (Ledger.Runde <$> df_all) < 2 →
  correct df_all = Ok (naive_correction df_all).
Proof. intros Hn. unfold correct. rewrite decide_False by lia. done. Qed.

Lemma correct_fitted df_all :
  2 ≤ nunique (Ledger.Runde <$> df_all) →
  correct df_all
  = fit ← mixedlm_fit (model_frame df_all);
    fitted ← fittedvalues fit;
    Ok (set_korr (set_vorhergesagt fitted df_all)).
Proof. intros Hn. unfold correct. by rewrite decide_True. Qed.

Lemma set_korr_vorhergesagt_lookup fitted df_all i :
  set_korr (set_vorhergesagt fitted df_all) !! i
  = (λ r, Ledger.Row (Ledger.Block r) (Ledger.Runde r) (Ledger.Spieler r)
            (Ledger.Platz r) (Ledger.Punkte r) (fitted !! i)
            ((λ f, (Ledger.Punkte r - f)%float) <$> fitted !! i))
      <$> df_all !! i.
Proof.
  unfold set_korr, set_vorhergesagt.
  rewrite list_lookup_fmap, list_lookup_imap.
  by destruct (df_all !! i).
Qed.

(** C2.  On a table with exactly one distinct round the correction pass
    returns, and the corrected score of every row is its raw score minus the
    mean of the raw scores of the rows of the same seat. *)
Theorem correct_single_round df_all :
  nunique (Ledger.Runde <$> df_all) = 1 →
  ∃ df',
    correct df_all = Ok df'
    ∧ Forall2
        (λ r r',
           Ledger.Punkte_korr r'
           = Some (Ledger.Punkte r
                   - mean (Ledger.Punkte
                             <$> filter (λ x, Ledger.Platz x = Ledger.Platz r)
                                   df_all))%float)
        df_all df'.
Proof.
  intros Hn. exists (naive_correction df_all).
  split; [apply correct_naive; lia|].
  rewrite naive_correction_fmap.
  apply Forall2_fmap_r, Forall_Forall2_diag, Forall_forall. by intros r _.
Qed.

(** C3.  On a table with two distinct rounds or more the correction pass
    fits the mixed model (seat as categorical fixed effect, random intercept
    per player) on the seat, player and raw score of every row of the table;
    when the fit returns and its fitted values can be read, the pass returns,
    and every row gets the fitted value of its label as predicted score and
    its raw score minus that fitted value as corrected score. *)
Theorem correct_multi_round df_all fit fittedvalues_read :
  2 ≤ nunique (Ledger.Runde <$> df_all) →
  mixedlm_fit
    ((λ r, (Ledger.Punkte r, Ledger.Platz r, Ledger.Spieler r)) <$> df_all)
  = Ok fit →
  fittedvalues fit = Ok fittedvalues_read →
  ∃ df',
    correct df_all = Ok df'
    ∧ length df' = length df_all
    ∧ ∀ i r fitted,
        df_all !! i = Some r →
        fittedvalues_read !! i = Some fitted →
        ∃ r',
          df' !! i = Some r'
          ∧ Ledger.Punkte_vorhergesagt r' = Some fitted
          ∧ Ledger.Punkte_korr r' = Some (Ledger.Punkte r - fitted)%float.
Proof.
  intros Hn Hfit Hread. eexists. split; [|split].
  - rewrite correct_fitted by done. unfold model_frame. rewrite Hfit.
    simpl. rewrite Hread. done.
  - unfold set_korr, set_vorhergesagt. by rewrite length_fmap, length_imap.
  - intros i r fitted Hr Hf. eexists. split.
    + rewrite set_korr_vorhergesagt_lookup, Hr. done.
    + simpl. by rewrite Hf.
Qed.

(** C4, as the program has it.  On a table with two distinct rounds or
    more, a fit that raises makes the correction pass raise the same error;
    a fit that returns results whose fitted values cannot be read makes the
    pass raise the error of that read; and a fit that returns results whose
    fitted values can be read has them used, converged or not.  The naive
    centering is what the pass does on a table with fewer than two distinct
    rounds only. *)
Theorem correct_fit_outcome df_all :
  2 ≤ nunique (Ledger.Runde <$> df_all) →
  (∀ e, mixedlm_fit (model_frame df_all) = Raise e →
        correct df_all = Raise e)
  ∧ (∀ c e,
       mixedlm_fit (model_frame df_all) = Ok (Results c (Raise e)) →
       correct df_all = Raise e)
  ∧ (∀ c fitted,
       mixedlm_fit (model_frame df_all) = Ok (Results c (Ok fitted)) →
       correct df_all = Ok (set_korr (set_vorhergesagt fitted df_all))).
Proof.
  intros Hn. split_and!.
  - intros e He. rewrite correct_fitted by done. by rewrite He.
  - intros c e Hfit. rewrite correct_fitted by done. by rewrite Hfit.
  - intros c fitted Hfit. rewrite correct_fitted by done. by rewrite Hfit.
Qed.

(** The correction pass writes the two score columns only. *)
Lemma correct_recorded df_all df' :
  correct df_all = Ok df' → recorded <$> df' = recorded <$> df_all.
Proof.
  unfold correct. destruct (decide _).
  - destruct (mixedlm_fit _) as [[c [fitted|e]]|e]; simpl; [|done..].
    intros [= <-]. apply list_eq. intros i.
    rewrite !list_lookup_fmap, set_korr_vorhergesagt_lookup.
    by destruct (df_all !! i).
  - intros [= <-]. rewrite naive_correction_fmap, <-list_fmap_compose.
    by apply list_fmap_ext.
Qed.

(** ** Recording a round *)

Lemma foldl_insert_notin `{Countable K} {P V} (f : P → K) (g : P → V)
    (ps : list P) (d : gmap K V) k :
  k ∉ f <$> ps → foldl (λ d p, <[f p := g p]> d) d ps !! k = d !! k.
Proof.
  revert d. induction ps as [|p ps IH]; intros d Hk; [done|].
  simpl. rewrite fmap_cons, not_elem_of_cons in Hk. destruct Hk as [Hne Hk].
  rewrite IH by done. by rewrite lookup_insert_ne.
Qed.

(** With distinct keys, every key keeps the value it was written with. *)
Lemma foldl_insert_lookup `{Countable K} {P V} (f : P → K) (g : P → V)
    (ps : list P) (d : gmap K V) i p :
  NoDup (f <$> ps) → ps !! i = Some p →
  foldl (λ d p, <[f p := g p]> d) d ps !! f p = Some (g p).
Proof.
  revert d i. induction ps as [|q ps IH]; intros d i Hnd Hp; [done|].
  rewrite fmap_cons in Hnd. apply NoDup_cons in Hnd as [Hq Hnd].
  destruct i as [|i]; simpl in *.
  - injection Hp as ->. rewrite foldl_insert_notin by done.
    apply lookup_insert_eq.
  - by apply (IH _ i).
Qed.

Lemma collect_scores_from round_plan (punkte_dict : gmap string float) w :
  length round_plan ≤ length (stdin w) →
  for_each_prog round_plan
    (λ row punkte_dict,
       bind_prog input
         (λ eingabe,
            ret_prog (<[Plan.Spieler row := parse_score eingabe]> punkte_dict)))
    punkte_dict w
  = Ok (foldl (λ d p, <[Plan.Spieler p.1 := parse_score p.2]> d) punkte_dict
          (zip round_plan (stdin w)),
        World (rng_state w) (drop (length round_plan) (stdin w))).
Proof.
  revert punkte_dict w.
  induction round_plan as [|row round_plan IH]; intros d [g inp] Hlen.
  - done.
  - destruct inp as [|eingabe inp]; simpl in Hlen; [lia|].
    simpl. unfold bind_prog at 1. unfold bind_prog at 1. simpl.
    rewrite IH by (simpl; lia). done.
Qed.

Lemma append_scores_ok block_count r n round_plan
    (punkte_dict : gmap string float) df_all :
  (∀ row, row ∈ round_plan → is_Some (punkte_dict !! Plan.Spieler row)) →
  append_scores block_count r n round_plan punkte_dict df_all
  = Ok (df_all ++
          ((λ row, Ledger.Row block_count (r + (block_count - 1) * n)
                     (Plan.Spieler row) (Plan.Platz row)
                     (default 0%float (punkte_dict !! Plan.Spieler row))
                     None None)
             <$> round_plan)).
Proof.
  intros Hdict. unfold append_scores.
  rewrite (for_each_ext _
             (λ row acc,
                y ← (punkte ← dict_getitem punkte_dict (Plan.Spieler row);
                     Ok (Ledger.Row block_count (r + (block_count - 1) * n)
                           (Plan.Spieler row) (Plan.Platz row) punkte
                           None None));
                Ok (acc ++ [y]))).
  - rewrite for_each_append. erewrite comprehension_ok; [done|].
    intros row Hrow. unfold dict_getitem.
    by destruct (Hdict row Hrow) as [v ->].
  - intros row acc _. by destruct (dict_getitem _ _).
Qed.

(** C7.  A round whose players are distinct and whose scores are all on
    standard input is recorded without raising, whatever the inputs are: the
    row of each player carries the number its input parses to, and zero when
    the input does not parse. *)
Theorem record_round_scores block_count r n round_plan df_all w :
  NoDup (Plan.Spieler <$> round_plan) →
  length round_plan ≤ length (stdin w) →
  record_round block_count r n round_plan df_all w
  = Ok (df_all ++
          zip_with
            (λ row eingabe,
               Ledger.Row block_count (r + (block_count - 1) * n)
                 (Plan.Spieler row) (Plan.Platz row)
                 match float_of_string eingabe with
                 | Some punkte => punkte
                 | None => 0%float
                 end
                 None None)
            round_plan (stdin w),
        World (rng_state w) (drop (length round_plan) (stdin w))).
Proof.
  intros Hnd Hlen. unfold record_round, collect_scores, bind_prog.
  rewrite collect_scores_from by done. unfold lift.
  set (d := foldl _ ∅ _).
  assert (∀ i row eingabe,
            round_plan !! i = Some row → stdin w !! i = Some eingabe →
            d !! Plan.Spieler row = Some (parse_score eingabe)) as Hd.
  { intros i row eingabe Hrow He.
    apply (foldl_insert_lookup (λ p, Plan.Spieler p.1)
             (λ p, parse_score p.2) _ _ i (row, eingabe)).
    - replace ((λ p : Plan.row * string, Plan.Spieler p.1)
               <$> zip round_plan (stdin w))
        with (Plan.Spieler <$> (zip round_plan (stdin w)).*1)
        by by rewrite <-list_fmap_compose.
      by rewrite fst_zip.
    - apply lookup_zip_with_Some. by exists row, eingabe. }
  rewrite append_scores_ok.
  - do 3 f_equal. apply list_eq. intros i.
    rewrite list_lookup_fmap, lookup_zip_with.
    destruct (round_plan !! i) as [row|] eqn:Hrow; [|done]. simpl.
    destruct (lookup_lt_is_Some_2 (stdin w) i) as [eingabe He].
    { apply lookup_lt_Some in Hrow. lia. }
    rewrite He. simpl. by rewrite (Hd i row eingabe).
  - intros row [i Hrow]%list_elem_of_lookup.
    destruct (lookup_lt_is_Some_2 (stdin w) i) as [eingabe He].
    { apply lookup_lt_Some in Hrow. lia. }
    rewrite (Hd i row eingabe); done.
Qed.

Lemma append_scores_shape block_count r n round_plan
    (punkte_dict : gmap string float) df_all df_out :
  append_scores block_count r n round_plan punkte_dict df_all = Ok df_out →
  ∃ new,
    df_out = df_all ++ new
    ∧ Forall2
        (λ row x,
           Ledger.Block x = block_count
           ∧ Ledger.Runde x = r + (block_count - 1) * n
           ∧ Ledger.Spieler x = Plan.Spieler row
           ∧ Ledger.Platz x = Plan.Platz row)
        round_plan new.
Proof.
  unfold append_scores. revert df_all.
  induction round_plan as [|row round_plan IH]; intros df_all Hrun; simpl in *.
  - injection Hrun as <-. exists []. by rewrite app_nil_r.
  - destruct (dict_getitem punkte_dict (Plan.Spieler row)) as [punkte|e];
      simpl in Hrun; [|done].
    apply IH in Hrun as (new & -> & Hnew).
    eexists (_ :: new). split; [by rewrite <-app_assoc|].
    by constructor.
Qed.

Lemma record_round_shape block_count r n round_plan df_all w df_out w' :
  record_round block_count r n round_plan df_all w = Ok (df_out, w') →
  ∃ new,
    df_out = df_all ++ new
    ∧ Forall2
        (λ row x,
           Ledger.Block x = block_count
           ∧ Ledger.Runde x = r + (block_count - 1) * n
           ∧ Ledger.Spieler x = Plan.Spieler row
           ∧ Ledger.Platz x = Plan.Platz row)
        round_plan new.
Proof.
  unfold record_round, bind_prog. intros Hrec.
  destruct (collect_scores _ _) as [[d w2]|e]; [|done].
  unfold lift in Hrec.
  destruct (append_scores _ _ _ _ _ _) as [df1|e] eqn:Happ; [|done].
  injection Hrec as -> _. eapply append_scores_shape, Happ.
Qed.

(** C10.  Over one round, the table changes in two steps: the append step
    adds one row per row of the round's seating, with that row's player and
    seat, the block number and the global round number
    [r + (block_count - 1) * n]; the correction pass that follows changes no
    block, round, player, seat or raw score and no number of rows. *)
Theorem play_round_frame seating_plan block_count n r df_all w df' pivot w' :
  play_round seating_plan block_count n r df_all w = Ok ((df', pivot), w') →
  ∃ new,
    record_round block_count r n
      (filter (λ row, Plan.Runde row = r) seating_plan) df_all w
    = Ok (df_all ++ new, w')
    ∧ Forall2
        (λ row x,
           Ledger.Block x = block_count
           ∧ Ledger.Runde x = r + (block_count - 1) * n
           ∧ Ledger.Spieler x = Plan.Spieler row
           ∧ Ledger.Platz x = Plan.Platz row)
        (filter (λ row, Plan.Runde row = r) seating_plan) new
    ∧ correct (df_all ++ new) = Ok df'
    ∧ recorded <$> df' = recorded <$> (df_all ++ new)
    ∧ length df' = length df_all + length new.
Proof.
  unfold play_round, bind_prog. intros Hrun.
  destruct (record_round _ _ _ _ _ _) as [[df1 w1]|e] eqn:Hrec; [|done].
  unfold lift in Hrun.
  destruct (correct df1) as [df2|e] eqn:Hcor; [|done].
  unfold ret_prog in Hrun. injection Hrun as -> _ ->.
  destruct (record_round_shape _ _ _ _ _ _ _ _ Hrec) as (new & -> & Hnew).
  exists new. split_and!; [done..| |].
  - by apply correct_recorded.
  - apply correct_recorded in Hcor.
    apply (f_equal length) in Hcor.
    by rewrite !length_fmap, length_app in Hcor.
Qed.

(** ** Sorting *)

Lemma insert_sorted_Permutation {A} (le : A → A → bool) x l :
  insert_sorted le x l ≡ₚ x :: l.
Proof.
  induction l as [|y l IH]; simpl; [done|].
  destruct (le x y); [done|]. rewrite IH. apply Permutation_swap.
Qed.

Lemma sort_by_Permutation {A} (le : A → A → bool) l : sort_by le l ≡ₚ l.
Proof.
  induction l as [|x l IH]; [done|].
  unfold sort_by in *. simpl. by rewrite insert_sorted_Permutation, IH.
Qed.

Lemma insert_sorted_Sorted {A} (le : A → A → bool) x l :
  (∀ a b, le a b = true ∨ le b a = true) →
  Sorted (λ a b, le a b = true) l →
  Sorted (λ a b, le a b = true) (insert_sorted le x l).
Proof.
  intros Htotal. induction 1 as [|y l Hl IH Hy]; simpl.
  - by repeat constructor.
  - destruct (le x y) eqn:Hxy.
    + by repeat constructor.
    + assert (le y x = true) as Hyx by (destruct (Htotal x y); congruence).
      constructor; [done|].
      destruct Hy as [|z l Hz]; simpl; [by constructor|].
      destruct (le x z); by constructor.
Qed.

Lemma sort_by_Sorted {A} (le : A → A → bool) l :
  (∀ a b, le a b = true ∨ le b a = true) →
  Sorted (λ a b, le a b = true) (sort_by le l).
Proof.
  intros Htotal. induction l as [|x l IH]; [constructor|].
  unfold sort_by in *. simpl. by apply insert_sorted_Sorted.
Qed.

Lemma Sorted_impl {A} (R1 R2 : relation A) l :
  (∀ x y, R1 x y → R2 x y) → Sorted R1 l → Sorted R2 l.
Proof.
  intros HR. induction 1 as [|x l Hl IH Hx]; constructor; [done|].
  destruct Hx; constructor; auto.
Qed.

Lemma key_le_total a b : key_le a b = true ∨ key_le b a = true.
Proof.
  unfold key_le. destruct a as [r1 p1], b as [r2 p2]. simpl.
  destruct (Nat.lt_trichotomy r1 r2) as [Hlt|[->|Hlt]].
  - left. apply Nat.ltb_lt in Hlt. by rewrite Hlt.
  - rewrite Nat.ltb_irrefl, Nat.eqb_refl. simpl. apply String.leb_total.
  - right. apply Nat.ltb_lt in Hlt. by rewrite Hlt.
Qed.

Lemma key_le_fst a b : key_le a b = true → a.1 ≤ b.1.
Proof.
  unfold key_le. intros [Hlt|[Heq _]%andb_true_iff]%orb_true_iff.
  - apply Nat.ltb_lt in Hlt. lia.
  - apply Nat.eqb_eq in Heq. lia.
Qed.

Lemma leb_total a b : Nat.leb a b = true ∨ Nat.leb b a = true.
Proof.
  destruct (Nat.le_ge_cases a b) as [H|H]; [left|right]; by apply Nat.leb_le.
Qed.

(** Distinct numbers in non-decreasing order are in increasing order. *)
Lemma sort_by_leb_increasing (l : list nat) :
  NoDup l → StronglySorted lt (sort_by Nat.leb l).
Proof.
  intros Hnd.
  assert (NoDup (sort_by Nat.leb l)) as Hnd'
    by by rewrite sort_by_Permutation.
  assert (StronglySorted le (sort_by Nat.leb l)) as Hs.
  { apply Sorted_StronglySorted; [apply _|].
    eapply Sorted_impl; [|apply sort_by_Sorted, leb_total].
    intros x y. apply Nat.leb_le. }
  induction Hs as [|x k Hk IH Hx]; constructor.
  - apply IH. by apply NoDup_cons in Hnd' as [_ ?].
  - apply NoDup_cons in Hnd' as [Hxk _].
    rewrite Forall_forall in Hx |- *. intros y Hy.
    specialize (Hx y Hy). assert (x ≠ y) by (by intros ->). lia.
Qed.

(** ** Running sums per group *)

Lemma group_cumsum_length acc kvs : length (group_cumsum acc kvs) = length kvs.
Proof.
  revert acc. induction kvs as [|kv kvs IH]; intros acc; [done|].
  simpl. destruct (is_nan kv.2); simpl; by rewrite IH.
Qed.

Lemma kahan_step_nan acc v : is_nan v = true → kahan_step acc v = acc.
Proof. unfold kahan_step. by intros ->. Qed.

Lemma group_cumsum_lookup acc kvs i k v :
  kvs !! i = Some (k, v) →
  group_cumsum acc kvs !! i
  = Some (if is_nan v then nan
          else (foldl kahan_step (default (0%float, 0%float) (acc !! k))
                  (snd <$> filter (λ kv, kv.1 = k) (take (S i) kvs))).1).
Proof.
  revert acc i. induction kvs as [|[k0 v0] kvs IH]; intros acc i Hi; [done|].
  destruct i as [|i].
  - injection Hi as -> ->. simpl. rewrite take_0, filter_cons, filter_nil.
    simpl. rewrite decide_True by done. simpl.
    by destruct (is_nan v).
  - simpl in Hi. cbn [group_cumsum]. simpl fst. simpl snd.
    rewrite ?(firstn_cons (S i)), filter_cons. simpl fst.
    destruct (is_nan v0) eqn:Hv0.
    + rewrite lookup_cons_ne_0 by done. simpl pred. rewrite (IH _ _ Hi).
      destruct (decide (k0 = k)) as [->|Hne]; [|done].
      rewrite fmap_cons. cbn [foldl snd]. by rewrite kahan_step_nan.
    + rewrite lookup_cons_ne_0 by done. simpl pred. rewrite (IH _ _ Hi).
      destruct (decide (k0 = k)) as [->|Hne].
      * rewrite lookup_insert_eq, fmap_cons. by cbn [foldl snd default].
      * by rewrite lookup_insert_ne.
Qed.

(** ** The aggregator *)

Lemma agg_keys_elem df_all k :
  k ∈ agg_keys df_all
  ↔ ∃ x, x ∈ df_all ∧ (Ledger.Runde x, Ledger.Spieler x) = k.
Proof.
  unfold agg_keys.
  rewrite sort_by_Permutation, elem_of_remove_dups, list_elem_of_fmap.
  split; intros (x & ? & ?); by exists x.
Qed.

Lemma agg_keys_NoDup df_all : NoDup (agg_keys df_all).
Proof.
  unfold agg_keys. rewrite sort_by_Permutation. apply NoDup_remove_dups.
Qed.

Lemma agg_keys_sorted df_all :
  StronglySorted (λ a b : nat * string, a.1 ≤ b.1) (agg_keys df_all).
Proof.
  apply Sorted_StronglySorted.
  { intros a b c ??. lia. }
  eapply Sorted_impl; [|apply sort_by_Sorted, key_le_total].
  apply key_le_fst.
Qed.

Lemma groupby_sum_eq df_all :
  groupby_sum df_all
  = (λ k, Agg.Row k.1 k.2 (round_sum df_all k.1 k.2) None)
      <$> agg_keys df_all.
Proof.
  unfold groupby_sum. rewrite <-list_fmap_compose.
  apply list_fmap_ext. intros _ [r p] Hk%list_elem_of_lookup_2.
  apply agg_keys_elem in Hk as (x & Hx & Hxk). simpl. f_equal.
  rewrite (groupby_fold_lookup _ _ _ _ (default nan (Ledger.Punkte_korr x))).
  - simpl. by rewrite group_values.
  - apply list_elem_of_fmap. exists x. by rewrite Hxk.
Qed.

Lemma running_sums_length df_all :
  length (running_sums df_all) = length (agg_keys df_all).
Proof. unfold running_sums. by rewrite group_cumsum_length, length_fmap. Qed.

Lemma fmap_zip_with_fst {A B C D} (f : A → B → C) (g : C → D) (h : A → D)
    (l : list A) (k : list B) :
  (∀ x y, g (f x y) = h x) → length l ≤ length k →
  g <$> zip_with f l k = h <$> l.
Proof.
  intros Hg. revert k. induction l as [|x l IH]; intros [|y k] Hlen;
    simpl in *; [done|done|lia|].
  rewrite Hg, IH; [done|lia].
Qed.

Lemma set_cum_rows (f : nat * string → float) keys cums :
  zip_with
    (λ a c, Agg.Row (Agg.Runde a) (Agg.Spieler a) (Agg.Punkte_korr a) (Some c))
    ((λ k, Agg.Row k.1 k.2 (f k) None) <$> keys) cums
  = zip_with (λ k c, Agg.Row k.1 k.2 (f k) (Some c)) keys cums.
Proof. by rewrite zip_with_fmap_l. Qed.

Lemma set_cum_entries (f : nat * string → float) keys cums :
  omap (λ a, c ← Agg.Punkte_korr_cum a;
             Some ((Agg.Runde a, Agg.Spieler a), c))
    (zip_with (λ k c, Agg.Row k.1 k.2 (f k) (Some c)) keys cums)
  = zip keys cums.
Proof.
  revert cums. induction keys as [|[r p] keys IH]; intros [|c cums]; try done.
  simpl. by rewrite IH.
Qed.

(** The pivot, in terms of the keys of the table and their running
    sums. *)
Lemma aggregate_eq df_all :
  aggregate df_all
  = let idx := sort_by Nat.leb (remove_dups (agg_keys df_all).*1) in
    let cols := sort_by String.leb (remove_dups (agg_keys df_all).*2) in
    Pivot idx cols
      ((λ r, (λ p, fillna0 (cum_map df_all !! (r, p))) <$> cols) <$> idx).
Proof.
  unfold aggregate, pivot_fillna, set_cum.
  rewrite groupby_sum_eq, <-list_fmap_compose. simpl.
  change (group_cumsum ∅ _) with (running_sums df_all).
  rewrite set_cum_rows, set_cum_entries.
  rewrite (fmap_zip_with_fst _ Agg.Runde fst), (fmap_zip_with_fst _ Agg.Spieler snd);
    [done|done| |done|]; by rewrite running_sums_length.
Qed.

Lemma aggregate_index_elem df_all r :
  r ∈ index (aggregate df_all) ↔ ∃ x, x ∈ df_all ∧ Ledger.Runde x = r.
Proof.
  rewrite aggregate_eq. simpl.
  rewrite sort_by_Permutation, elem_of_remove_dups, list_elem_of_fmap.
  split.
  - intros ([r' p] & -> & (x & Hx & [= <- <-])%agg_keys_elem). eauto.
  - intros (x & Hx & <-). exists (Ledger.Runde x, Ledger.Spieler x).
    split; [done|]. apply agg_keys_elem. eauto.
Qed.

Lemma aggregate_columns_elem df_all p :
  p ∈ columns (aggregate df_all) ↔ ∃ x, x ∈ df_all ∧ Ledger.Spieler x = p.
Proof.
  rewrite aggregate_eq. simpl.
  rewrite sort_by_Permutation, elem_of_remove_dups, list_elem_of_fmap.
  split.
  - intros ([r p'] & -> & (x & Hx & [= <- <-])%agg_keys_elem). eauto.
  - intros (x & Hx & <-). exists (Ledger.Runde x, Ledger.Spieler x).
    split; [done|]. apply agg_keys_elem. eauto.
Qed.

Lemma aggregate_index_sorted df_all :
  StronglySorted lt (index (aggregate df_all)).
Proof.
  rewrite aggregate_eq. simpl.
  apply sort_by_leb_increasing, NoDup_remove_dups.
Qed.

Lemma aggregate_cell df_all i j r p :
  index (aggregate df_all) !! i = Some r →
  columns (aggregate df_all) !! j = Some p →
  cell_at (aggregate df_all) i j = Some (fillna0 (cum_map df_all !! (r, p))).
Proof.
  unfold cell_at. rewrite aggregate_eq. simpl. intros Hi Hj.
  rewrite list_lookup_fmap, Hi. simpl.
  by rewrite list_lookup_fmap, Hj.
Qed.

Lemma StronglySorted_lookup {A} (R : relation A) l i j x y :
  StronglySorted R l → l !! i = Some x → l !! j = Some y → i < j → R x y.
Proof.
  intros Hl. revert i j. induction Hl as [|z l Hl IH Hz]; intros i j; [done|].
  destruct i as [|i], j as [|j]; simpl; try lia.
  - intros [= ->] Hy _. rewrite Forall_forall in Hz.
    by eapply Hz, list_elem_of_lookup_2.
  - intros Hx Hy ?. apply (IH i j); [done..|lia].
Qed.

Lemma StronglySorted_filter {A} (R : relation A) (P : A → Prop)
    `{∀ x, Decision (P x)} l :
  StronglySorted R l → StronglySorted R (filter P l).
Proof.
  induction 1 as [|x l Hl IH Hx]; [constructor|].
  rewrite filter_cons. destruct (decide (P x)); [|done].
  constructor; [done|].
  rewrite Forall_forall in Hx |- *.
  intros y [_ Hy]%list_elem_of_filter. auto.
Qed.

Lemma StronglySorted_take {A} (R : relation A) l n :
  StronglySorted R l → StronglySorted R (take n l).
Proof.
  intros Hl. rewrite <-(take_drop n l) in Hl.
  by apply StronglySorted_app_1_l in Hl.
Qed.

Lemma StronglySorted_le_lt (l : list nat) :
  NoDup l → StronglySorted le l → StronglySorted lt l.
Proof.
  intros Hnd Hs. induction Hs as [|x k Hk IH Hx]; constructor.
  - apply IH. by apply NoDup_cons in Hnd as [_ ?].
  - apply NoDup_cons in Hnd as [Hxk _].
    rewrite Forall_forall in Hx |- *. intros y Hy.
    specialize (Hx y Hy). assert (x ≠ y) by (by intros ->). lia.
Qed.

Lemma rounds_of_elem df_all p r :
  r ∈ rounds_of df_all p ↔ (r, p) ∈ agg_keys df_all.
Proof.
  unfold rounds_of.
  rewrite sort_by_Permutation, elem_of_remove_dups, list_elem_of_fmap.
  rewrite agg_keys_elem. split.
  - intros (x & -> & [<- Hx]%list_elem_of_filter). by exists x.
  - intros (x & Hx & [= <- <-]). exists x. split; [done|].
    by apply list_elem_of_filter.
Qed.

Lemma rounds_of_sorted df_all p : StronglySorted lt (rounds_of df_all p).
Proof. apply sort_by_leb_increasing, NoDup_remove_dups. Qed.

(** The keys of player [p] up to the key [(r, p)] are the rounds of [p] up
    to [r]. *)
Lemma agg_keys_prefix df_all t r p :
  agg_keys df_all !! t = Some (r, p) →
  fst <$> filter (λ k, k.2 = p) (take (S t) (agg_keys df_all))
  = filter (λ r', r' ≤ r) (rounds_of df_all p).
Proof.
  intros Ht.
  pose proof (agg_keys_NoDup df_all) as Hnd.
  pose proof (agg_keys_sorted df_all) as Hs.
  set (keys := agg_keys df_all) in *.
  assert (NoDup (fst <$> filter (λ k : nat * string, k.2 = p)
                           (take (S t) keys))) as Hnd1.
  { apply NoDup_fmap_2_strong.
    - intros [r1 p1] [r2 p2] [Hp1 _]%list_elem_of_filter
        [Hp2 _]%list_elem_of_filter. simpl in *. congruence.
    - apply NoDup_filter. eapply sublist_NoDup; [exact Hnd|].
      apply sublist_take. }
  apply (StronglySorted_unique_strong lt).
  - intros; lia.
  - apply StronglySorted_le_lt; [done|].
    apply (StronglySorted_fmap fst (λ a b : nat * string, a.1 ≤ b.1) le);
      [done|].
    by apply StronglySorted_filter, StronglySorted_take.
  - apply StronglySorted_filter, rounds_of_sorted.
  - apply NoDup_Permutation; [done| |].
    { apply NoDup_filter. unfold rounds_of. rewrite sort_by_Permutation.
      apply NoDup_remove_dups. }
    intros r'. rewrite list_elem_of_fmap, list_elem_of_filter, rounds_of_elem.
    split.
    + intros ([r1 p1] & -> & [Hp (i & Hi & Hlt)%elem_of_take]%list_elem_of_filter).
      simpl in *. subst p1. split; [|by eapply list_elem_of_lookup_2].
      destruct (decide (i = t)) as [->|Hne].
      * rewrite Ht in Hi. injection Hi as ->. done.
      * apply (StronglySorted_lookup _ _ i t (r1, p) (r, p) Hs); [done..|lia].
    + intros [Hle [i Hi]%list_elem_of_lookup_1]. exists (r', p).
      split; [done|]. apply list_elem_of_filter. split; [done|].
      apply elem_of_take. exists i. split; [done|].
      destruct (decide (i < S t)) as [|Hge]; [done|].
      assert (r ≤ r') as Hle'.
      { apply (StronglySorted_lookup _ _ t i (r, p) (r', p) Hs); [done..|lia]. }
      assert (r' = r) as -> by lia.
      pose proof (NoDup_lookup _ _ _ _ Hnd Ht Hi). lia.
Qed.

(** The running sum of a key of the table is the cumulative sum of its
    player up to its round, unless the sum of that round itself is NaN. *)
Lemma cum_map_present df_all r p :
  (r, p) ∈ agg_keys df_all →
  cum_map df_all !! (r, p)
  = Some (if is_nan (round_sum df_all r p) then nan
          else cumulative df_all p r).
Proof.
  intros [t Ht]%list_elem_of_lookup_1.
  apply elem_of_list_to_map_1.
  { rewrite fst_zip by (by rewrite running_sums_length).
    apply agg_keys_NoDup. }
  apply list_elem_of_lookup. exists t. apply lookup_zip_with_Some.
  eexists (r, p), _. split; [done|]. split; [done|].
  unfold running_sums.
  rewrite (group_cumsum_lookup _ _ _ p (round_sum df_all r p))
    by (by rewrite list_lookup_fmap, Ht).
  rewrite lookup_empty. simpl. f_equal.
  destruct (is_nan (round_sum df_all r p)); [done|].
  unfold cumulative, kahan_sum. do 2 f_equal.
  rewrite <-(agg_keys_prefix df_all t r p Ht), <-fmap_take.
  rewrite (group_values snd (λ k, round_sum df_all k.1 k.2)).
  rewrite <-list_fmap_compose. apply list_fmap_ext.
  intros _ [r1 p1] [Hp _]%list_elem_of_lookup_2%list_elem_of_filter.
  simpl in *. by subst p1.
Qed.

(** C8.  For a round and a player with a row in the table, the pivot has a
    line for the round and a column for the player, and the cell there is the
    sum of the player's corrected scores over the player's rounds up to and
    including that round, as long as neither that sum nor the sum of the round
    is NaN; the lines of the pivot are in increasing order of round. *)
Theorem aggregate_cumulative df_all r p :
  (r, p) ∈ (λ x, (Ledger.Runde x, Ledger.Spieler x)) <$> df_all →
  is_nan (round_sum df_all r p) = false →
  is_nan (cumulative df_all p r) = false →
  StronglySorted lt (index (aggregate df_all))
  ∧ ∃ i j,
      index (aggregate df_all) !! i = Some r
      ∧ columns (aggregate df_all) !! j = Some p
      ∧ cell_at (aggregate df_all) i j = Some (cumulative df_all p r).
Proof.
  intros (x & Hk & Hx)%list_elem_of_fmap Hsum Hcum.
  split; [apply aggregate_index_sorted|].
  injection Hk as -> ->.
  assert (Ledger.Runde x ∈ index (aggregate df_all)) as [i Hi]%list_elem_of_lookup_1
    by (apply aggregate_index_elem; eauto).
  assert (Ledger.Spieler x ∈ columns (aggregate df_all))
    as [j Hj]%list_elem_of_lookup_1
    by (apply aggregate_columns_elem; eauto).
  exists i, j. split; [done|]. split; [done|].
  rewrite (aggregate_cell _ _ _ _ _ Hi Hj).
  rewrite cum_map_present by (apply agg_keys_elem; eauto).
  rewrite Hsum. simpl. by rewrite Hcum.
Qed.




(** ** A round returns *)

Lemma foldl_insert_is_Some `{Countable K} {P V} (f : P → K) (g : P → V)
    (ps : list P) (d : gmap K V) k :
  is_Some (d !! k) ∨ k ∈ f <$> ps →
  is_Some (foldl (λ d p, <[f p := g p]> d) d ps !! k).
Proof.
  revert d. induction ps as [|q ps IH]; intros d Hk; simpl.
  - destruct Hk as [?|Hk]; [done|]. by apply elem_of_nil in Hk.
  - apply IH. rewrite fmap_cons, elem_of_cons in Hk.
    destruct (decide (f q = k)) as [<-|Hne].
    + left. by rewrite lookup_insert_eq.
    + rewrite lookup_insert_ne by done. destruct Hk as [?|[?|?]]; auto.
      congruence.
Qed.

(** With a line of input for every seat, the scores of a round are read
    and appended without raising. *)
Lemma record_round_returns block_count r n round_plan df_all w :
  length round_plan ≤ length (stdin w) →
  ∃ new,
    record_round block_count r n round_plan df_all w
    = Ok (df_all ++ new,
          World (rng_state w) (drop (length round_plan) (stdin w))).
Proof.
  intros Hlen. unfold record_round, collect_scores, bind_prog.
  rewrite collect_scores_from by done. unfold lift.
  rewrite append_scores_ok; [by eexists|].
  intros row Hrow.
  apply (foldl_insert_is_Some (λ p, Plan.Spieler p.1) (λ p, parse_score p.2)).
  right.
  replace ((λ p : Plan.row * string, Plan.Spieler p.1)
             <$> zip round_plan (stdin w))
    with (Plan.Spieler <$> (zip round_plan (stdin w)).*1)
    by by rewrite <-list_fmap_compose.
  rewrite fst_zip by done. apply list_elem_of_fmap. by exists row.
Qed.

(** With a line of input for every seat of the round and a fit that
    returns results whose fitted values can be read, the round returns. *)
Lemma play_round_returns seating_plan block_count n r df_all w :
  length (filter (λ row, Plan.Runde row = r) seating_plan)
  ≤ length (stdin w) →
  model_returns →
  ∃ out w',
    play_round seating_plan block_count n r df_all w = Ok (out, w').
Proof.
  intros Hlen Hfit. unfold play_round, bind_prog.
  destruct (record_round_returns block_count r n _ df_all w Hlen)
    as [new ->].
  unfold lift, correct. destruct (decide _).
  - destruct (Hfit (model_frame (df_all ++ new))) as (fit & fitted & -> & Hv).
    simpl. rewrite Hv. by eexists _, _.
  - by eexists _, _.
Qed.

(** X19.  The builder is given the players only and draws the design
    itself for as many players as it is given, so that the design and the
    list of players always agree in size: on a non-empty list the design has
    a row per player and a cell per player in every row, and the builder
    returns a plan; the only list it raises on is the empty one, with the
    [KeyError] of sorting a frame without columns. *)
Theorem create_seating_plan_own_design players w :
  match players with
  | [] => create_seating_plan players w = Raise KeyError
  | _ =>
      ∃ latin_sq w1 plan w',
        generate_random_latin_square (length players) w = Ok (latin_sq, w1)
        ∧ length latin_sq = length players
        ∧ Forall (λ row, length row = length players) latin_sq
        ∧ create_seating_plan players w = Ok (plan, w')
  end.
Proof.
  destruct players as [|player rest].
  - unfold create_seating_plan, bind_prog.
    by rewrite generate_random_latin_square_run.
  - set (players := player :: rest).
    assert (1 ≤ length players) as Hn by (simpl; lia). clearbody players.
    destruct (shuffled_square_rows
                (shuffle (rng_state w) (seq 0 (length players))).1
                (shuffle (shuffle (rng_state w) (seq 0 (length players))).2
                   (seq 0 (length players))).1
                (length players)) as [Hlen Hrows]; [apply shuffle_perm..|].
    eexists _, _, _, _. split; [apply generate_random_latin_square_run|].
    simpl. split; [done|]. split; [|by apply create_seating_plan_run].
    eapply Forall_impl; [exact Hrows|]. intros row Hrow. simpl in Hrow.
    by apply Permutation_seq_below in Hrow as [? _].
Qed.

(** ** The balance of the seating plan *)

Lemma fmap_lookup_total_seq_length {A} `{!Inhabited A} (l : list A) n :
  length l = n → (l !!!.) <$> seq 0 n = l.
Proof. intros <-. apply fmap_lookup_total_seq. Qed.

Lemma shuffled_square_cell symbol_perm col_perm n r seat :
  col_perm ≡ₚ seq 0 n → r < n → seat < n →
  (shuffled_square symbol_perm col_perm n !!! r) !!! seat
  = symbol_perm !!! ((r + col_perm !!! seat) mod n).
Proof.
  intros Hcp Hr Hseat.
  apply Permutation_seq_below in Hcp as [Hclen Hclt].
  rewrite shuffled_square_eq by done.
  rewrite (list_lookup_total_fmap _ (seq 0 n))
    by (by rewrite length_seq).
  rewrite lookup_total_seq_lt by done. simpl.
  by rewrite lookup_total_fmap_nat by lia.
Qed.

(** The players of the rounds at one seat, through the design. *)
Lemma shuffled_square_seat symbol_perm col_perm n seat :
  symbol_perm ≡ₚ seq 0 n → col_perm ≡ₚ seq 0 n → seat < n →
  (λ r, (shuffled_square symbol_perm col_perm n !!! r) !!! seat) <$> seq 0 n
  ≡ₚ seq 0 n.
Proof.
  intros Hsp Hcp Hseat.
  trans ((symbol_perm !!!.)
           <$> ((λ r, (r + col_perm !!! seat) mod n) <$> seq 0 n)).
  - rewrite <-list_fmap_compose.
    rewrite (list_fmap_ext _
               (λ r, symbol_perm !!! ((r + col_perm !!! seat) mod n))
               (seq 0 n)); [done|].
    intros _ r Hr%list_elem_of_lookup_2%elem_of_seq. simpl.
    apply shuffled_square_cell; [done|lia|done].
  - rewrite cyclic_column_Permutation.
    apply Permutation_seq_below in Hsp as Hsp'. destruct Hsp' as [<- _].
    by rewrite fmap_lookup_total_seq.
Qed.

Lemma seating_of_round_players players latin_sq n r :
  r < n → length (latin_sq !!! r) = n →
  Plan.Spieler
    <$> filter (λ row, Plan.Runde row = r + 1) (seating_of players latin_sq n)
  = (players !!!.) <$> (latin_sq !!! r).
Proof.
  intros Hr Hlen. rewrite seating_of_round by done.
  rewrite <-list_fmap_compose.
  trans ((players !!!.) <$> (((latin_sq !!! r) !!!.) <$> seq 0 n)).
  - by rewrite <-list_fmap_compose.
  - by rewrite fmap_lookup_total_seq_length.
Qed.

Lemma seating_of_seat_players players latin_sq n seat :
  seat < n →
  Plan.Spieler
    <$> filter (λ row, Plan.Platz row = seat + 1)
          (seating_of players latin_sq n)
  = (players !!!.) <$> ((λ r, (latin_sq !!! r) !!! seat) <$> seq 0 n).
Proof.
  intros Hseat. rewrite seating_of_seat by done.
  by rewrite <-!list_fmap_compose.
Qed.

Lemma shuffled_seating_round_players players symbol_perm col_perm r :
  symbol_perm ≡ₚ seq 0 (length players) →
  col_perm ≡ₚ seq 0 (length players) →
  r < length players →
  Plan.Spieler
    <$> filter (λ row, Plan.Runde row = r + 1)
          (seating_of players
             (shuffled_square symbol_perm col_perm (length players))
             (length players))
  ≡ₚ players.
Proof.
  intros Hsp Hcp Hr.
  destruct (shuffled_square_rows symbol_perm col_perm (length players))
    as [Hlen Hrows]; [done..|].
  set (latin_sq := shuffled_square _ _ _) in *.
  assert (latin_sq !!! r ≡ₚ seq 0 (length players)) as Hrow.
  { rewrite Forall_lookup in Hrows. apply (Hrows r).
    apply list_lookup_lookup_total_lt. lia. }
  rewrite seating_of_round_players;
    [|done|by apply Permutation_seq_below in Hrow as [? _]].
  by apply fmap_lookup_total_Permutation.
Qed.

Lemma shuffled_seating_seat_players players symbol_perm col_perm seat :
  symbol_perm ≡ₚ seq 0 (length players) →
  col_perm ≡ₚ seq 0 (length players) →
  seat < length players →
  Plan.Spieler
    <$> filter (λ row, Plan.Platz row = seat + 1)
          (seating_of players
             (shuffled_square symbol_perm col_perm (length players))
             (length players))
  ≡ₚ players.
Proof.
  intros Hsp Hcp Hseat. rewrite seating_of_seat_players by done.
  by apply fmap_lookup_total_Permutation, shuffled_square_seat.
Qed.

(** X1.  In a plan that the builder returns, the players of every round
    are the given players, each once, in some order. *)
Theorem create_seating_plan_round_players players w plan w' r :
  create_seating_plan players w = Ok (plan, w') →
  1 ≤ r ≤ length players →
  Plan.Spieler <$> filter (λ row, Plan.Runde row = r) plan ≡ₚ players.
Proof.
  intros Hrun Hr.
  rewrite create_seating_plan_run in Hrun by lia. injection Hrun as <- _.
  replace r with ((r - 1) + 1) by lia.
  apply shuffled_seating_round_players; [apply shuffle_perm..|lia].
Qed.

(** X2.  In a plan that the builder returns, the players that sit on one
    seat over the rounds are the given players, each once, in some order. *)
Theorem create_seating_plan_seat_players players w plan w' seat :
  create_seating_plan players w = Ok (plan, w') →
  1 ≤ seat ≤ length players →
  Plan.Spieler <$> filter (λ row, Plan.Platz row = seat) plan ≡ₚ players.
Proof.
  intros Hrun Hseat.
  rewrite create_seating_plan_run in Hrun by lia. injection Hrun as <- _.
  replace seat with ((seat - 1) + 1) by lia.
  apply shuffled_seating_seat_players; [apply shuffle_perm..|lia].
Qed.

(** ** Input that ends early *)

Lemma collect_scores_eof round_plan (punkte_dict : gmap string float) w :
  length (stdin w) < length round_plan →
  for_each_prog round_plan
    (λ row punkte_dict,
       bind_prog input
         (λ eingabe,
            ret_prog (<[Plan.Spieler row := parse_score eingabe]> punkte_dict)))
    punkte_dict w
  = Raise EOFError.
Proof.
  revert punkte_dict w.
  induction round_plan as [|row round_plan IH]; intros d [g inp] Hlen;
    simpl in Hlen; [lia|].
  destruct inp as [|eingabe inp]; [done|].
  simpl. unfold bind_prog at 1. unfold bind_prog at 1. simpl.
  apply IH. simpl in *. lia.
Qed.

Lemma record_round_eof block_count r n round_plan df_all w :
  length (stdin w) < length round_plan →
  record_round block_count r n round_plan df_all w = Raise EOFError.
Proof.
  intros Hlen. unfold record_round, collect_scores, bind_prog.
  by rewrite collect_scores_eof.
Qed.

(** X3.  A round for which standard input holds fewer lines than the round
    has seats raises [EOFError], whatever the lines are and whatever the
    fit would do. *)
Theorem play_round_eof seating_plan block_count n r df_all w :
  length (stdin w)
  < length (filter (λ row, Plan.Runde row = r) seating_plan) →
  play_round seating_plan block_count n r df_all w = Raise EOFError.
Proof.
  intros Hlen. unfold play_round.
  set (round_plan := filter _ seating_plan) in *.
  unfold bind_prog at 1.
  unfold record_round, collect_scores. unfold bind_prog at 1.
  by rewrite collect_scores_eof.
Qed.

(** ** Correcting twice *)

Lemma recorded_Runde (df_all : list Ledger.row) :
  Ledger.Runde <$> df_all = (λ t, t.1.1.1.2) <$> (recorded <$> df_all).
Proof. by rewrite <-list_fmap_compose. Qed.

Lemma recorded_model_frame (df_all : list Ledger.row) :
  model_frame df_all = (λ t, (t.2, t.1.2, t.1.1.2)) <$> (recorded <$> df_all).
Proof. unfold model_frame. by rewrite <-list_fmap_compose. Qed.

Lemma recorded_seat_scores (df_all : list Ledger.row) k :
  Ledger.Punkte <$> filter (λ x, Ledger.Platz x = k) df_all
  = snd <$> filter (λ kv, kv.1 = k)
              ((λ t, (t.1.2, t.2)) <$> (recorded <$> df_all)).
Proof.
  rewrite <-list_fmap_compose.
  by rewrite (group_values Ledger.Platz Ledger.Punkte).
Qed.

(** X4.  The correction pass is idempotent: on the table it has returned
    it returns that table again. *)
Theorem correct_idempotent df_all df' :
  correct df_all = Ok df' → correct df' = Ok df'.
Proof.
  intros Hcor. pose proof (correct_recorded _ _ Hcor) as Hrec.
  unfold correct in *.
  rewrite (recorded_Runde df'), Hrec, <-recorded_Runde.
  destruct (decide (2 ≤ nunique (Ledger.Runde <$> df_all))).
  - rewrite (recorded_model_frame df'), Hrec, <-recorded_model_frame.
    destruct (mixedlm_fit (model_frame df_all)) as [[c [fitted|e]]|e];
      [|done..].
    simpl in *. injection Hcor as <-. f_equal.
    apply list_eq. intros i.
    rewrite !set_korr_vorhergesagt_lookup.
    by destruct (df_all !! i).
  - injection Hcor as <-. f_equal.
    rewrite (naive_correction_fmap (naive_correction df_all)).
    trans ((λ r, Ledger.Row (Ledger.Block r) (Ledger.Runde r)
                   (Ledger.Spieler r) (Ledger.Platz r) (Ledger.Punkte r)
                   (Ledger.Punkte_vorhergesagt r)
                   (Some (Ledger.Punkte r
                          - mean (Ledger.Punkte
                                    <$> filter
                                          (λ x, Ledger.Platz x = Ledger.Platz r)
                                          df_all))%float))
             <$> naive_correction df_all).
    + apply list_fmap_ext. intros _ r _. simpl. do 3 f_equal.
      rewrite (recorded_seat_scores (naive_correction df_all)), Hrec.
      by rewrite <-recorded_seat_scores.
    + rewrite !naive_correction_fmap, <-list_fmap_compose.
      by apply list_fmap_ext.
Qed.

(** ** The shape of the pivot *)

Lemma fillna0_number c : is_nan (fillna0 c) = false.
Proof.
  unfold fillna0. destruct c as [v|]; [|reflexivity].
  destruct (is_nan v) eqn:Hv; [reflexivity|done].
Qed.

Lemma String_leb_total a b : String.leb a b = true ∨ String.leb b a = true.
Proof. apply String.leb_total. Qed.

(** X5.  The pivot is a full table without NaN: one line per distinct
    round of the table, in increasing order, one column per distinct player,
    in the order of the names, and in every line one number per column. *)
Theorem aggregate_shape df_all :
  let pv := aggregate df_all in
  StronglySorted lt (index pv)
  ∧ (∀ r, r ∈ index pv ↔ ∃ x, x ∈ df_all ∧ Ledger.Runde x = r)
  ∧ NoDup (columns pv)
  ∧ Sorted (λ a b, String.leb a b = true) (columns pv)
  ∧ (∀ p, p ∈ columns pv ↔ ∃ x, x ∈ df_all ∧ Ledger.Spieler x = p)
  ∧ length (cells pv) = length (index pv)
  ∧ Forall
      (λ line,
         length line = length (columns pv)
         ∧ Forall (λ c, is_nan c = false) line)
      (cells pv).
Proof.
  intros pv. split; [apply aggregate_index_sorted|].
  split; [apply aggregate_index_elem|].
  split; [|split; [|split; [apply aggregate_columns_elem|]]].
  - unfold pv. rewrite aggregate_eq. simpl.
    rewrite sort_by_Permutation. apply NoDup_remove_dups.
  - unfold pv. rewrite aggregate_eq. simpl.
    apply sort_by_Sorted, String_leb_total.
  - unfold pv. rewrite aggregate_eq. simpl.
    split; [by rewrite length_fmap|].
    apply Forall_fmap, Forall_forall. intros r _. simpl.
    split; [by rewrite length_fmap|].
    apply Forall_fmap, Forall_forall. intros p _. apply fillna0_number.
Qed.

(** ** A block of rounds *)

Lemma placement_recorded (l : list Ledger.row) :
  placement <$> l = fst <$> (recorded <$> l).
Proof. by rewrite <-list_fmap_compose. Qed.

Lemma Forall2_fmap_eq {A B C} (f : A → C) (g : B → C) l k :
  Forall2 (λ a b, f a = g b) l k → f <$> l = g <$> k.
Proof. intros Hlk. by apply list_eq_Forall2, Forall2_fmap. Qed.

Lemma filter_fmap_comm {A B} (f : A → B) (P : B → Prop)
    `{∀ y, Decision (P y)} (l : list A) :
  filter P (f <$> l) = f <$> filter (λ x, P (f x)) l.
Proof.
  induction l as [|x l IH]; [done|].
  rewrite fmap_cons, !filter_cons. destruct (decide (P (f x))); [|done].
  by rewrite fmap_cons, IH.
Qed.

Lemma concat_fmap_fmap {A B} (f : A → B) (ls : list (list A)) :
  f <$> concat ls = concat ((λ l : list A, f <$> l) <$> ls).
Proof.
  induction ls as [|l ls IH]; [done|]. simpl. by rewrite fmap_app, IH.
Qed.

Lemma seq_1_fmap n : seq 1 n = (λ r, r + 1) <$> seq 0 n.
Proof.
  rewrite <-fmap_S_seq. apply list_fmap_ext. intros _ r _. simpl. lia.
Qed.

(** What a round that returns has done to the table and to standard
    input. *)
Lemma play_round_inv seating_plan block_count n r df_all w df' pivot w' :
  play_round seating_plan block_count n r df_all w = Ok ((df', pivot), w') →
  placement <$> df'
  = (placement <$> df_all)
    ++ ((λ row, (block_count, r + (block_count - 1) * n,
                 Plan.Spieler row, Plan.Platz row))
          <$> filter (λ row, Plan.Runde row = r) seating_plan)
  ∧ recorded <$> take (length df_all) df' = recorded <$> df_all
  ∧ length (filter (λ row, Plan.Runde row = r) seating_plan)
    ≤ length (stdin w)
  ∧ w' = World (rng_state w)
           (drop (length (filter (λ row, Plan.Runde row = r) seating_plan))
              (stdin w)).
Proof.
  unfold play_round. set (round_plan := filter _ seating_plan).
  unfold bind_prog. intros Hrun.
  destruct (decide (length round_plan ≤ length (stdin w))) as [Hlen|Hlen];
    [|by rewrite record_round_eof in Hrun by lia].
  destruct (record_round_returns block_count r n round_plan df_all w Hlen)
    as [new Hrec].
  rewrite Hrec in Hrun. unfold lift in Hrun.
  destruct (correct (df_all ++ new)) as [df2|e] eqn:Hcor; [|done].
  unfold ret_prog in Hrun. injection Hrun as -> _ <-.
  destruct (record_round_shape _ _ _ _ _ _ _ _ Hrec) as (new' & Heq & Hnew).
  apply app_inv_head in Heq as <-.
  pose proof (correct_recorded _ _ Hcor) as Hr.
  split_and!; [| |done|done].
  - rewrite placement_recorded, Hr, <-placement_recorded, fmap_app. f_equal.
    apply Forall2_fmap_eq, Forall2_flip.
    eapply Forall2_impl; [exact Hnew|].
    intros row x (HB & HR & HS & HP). unfold placement. simpl.
    by rewrite HB, HR, HS, HP.
  - rewrite fmap_take, Hr, fmap_app, take_app_length'; [done|].
    by rewrite length_fmap.
Qed.

(** The loop over the rounds of a block. *)
Lemma rounds_loop_inv seating_plan block_count n rs df_all w df' w' :
  for_each_prog rs
    (λ r df_all,
       bind_prog (play_round seating_plan block_count n r df_all)
         (λ out, ret_prog out.1))
    df_all w
  = Ok (df', w') →
  let added :=
    concat
      ((λ r, (λ row, (block_count, r + (block_count - 1) * n,
                      Plan.Spieler row, Plan.Platz row))
               <$> filter (λ row, Plan.Runde row = r) seating_plan)
         <$> rs) in
  placement <$> df' = (placement <$> df_all) ++ added
  ∧ recorded <$> take (length df_all) df' = recorded <$> df_all
  ∧ length added ≤ length (stdin w)
  ∧ w' = World (rng_state w) (drop (length added) (stdin w)).
Proof.
  revert df_all w. induction rs as [|r rs IH]; intros df_all w Hrun; simpl.
  - injection Hrun as -> <-. rewrite app_nil_r, take_ge by done.
    destruct w. split_and!; [done|done|simpl; lia|done].
  - simpl in Hrun. unfold bind_prog at 1 in Hrun.
    unfold bind_prog at 1 in Hrun.
    destruct (play_round seating_plan block_count n r df_all w)
      as [[[df1 pivot] w1]|e] eqn:Hround; [|done].
    unfold ret_prog in Hrun. simpl in Hrun.
    apply play_round_inv in Hround as (Hp1 & Hr1 & Hl1 & ->).
    apply IH in Hrun as (Hp & Hr & Hl & ->). simpl in *.
    rewrite length_drop in Hl.
    assert (length df_all ≤ length df1) as Hle.
    { apply (f_equal length) in Hp1.
      rewrite length_app, !length_fmap in Hp1. lia. }
    change (list_fmap _ _ ?f ?l) with (f <$> l).
    split_and!.
    + by rewrite Hp, Hp1, <-app_assoc.
    + replace (take (length df_all) df')
        with (take (length df_all) (take (length df1) df'))
        by (by rewrite take_take, Nat.min_l by lia).
      by rewrite fmap_take, Hr, <-fmap_take.
    + rewrite length_app, length_fmap. lia.
    + by rewrite drop_drop, length_app, length_fmap.
Qed.

Lemma set_block_round block_count plan r :
  filter (λ row, Plan.Runde row = r) (set_block block_count plan)
  = set_block block_count (filter (λ row, Plan.Runde row = r) plan).
Proof. unfold set_block. by rewrite filter_fmap_comm. Qed.

(** The rounds of a block record the seating plan, row by row. *)
Lemma rounds_placements block_count n players latin_sq :
  concat
    ((λ r, (λ row, (block_count, r + (block_count - 1) * n,
                    Plan.Spieler row, Plan.Platz row))
             <$> filter (λ row, Plan.Runde row = r)
                   (set_block block_count (seating_of players latin_sq n)))
       <$> seq 1 n)
  = block_placements block_count n (seating_of players latin_sq n).
Proof.
  unfold block_placements. unfold seating_of at 2.
  rewrite concat_fmap_fmap, seq_1_fmap, <-!list_fmap_compose. f_equal.
  apply list_fmap_ext. intros _ r Hr%list_elem_of_lookup_2%elem_of_seq. simpl.
  rewrite set_block_round, seating_of_round by lia.
  unfold set_block. rewrite <-!list_fmap_compose.
  by apply list_fmap_ext.
Qed.

Lemma block_placements_length block_count n plan :
  length (block_placements block_count n plan) = length plan.
Proof. unfold block_placements. by rewrite length_fmap. Qed.

Lemma create_seating_plan_nil w :
  create_seating_plan [] w = Raise KeyError.
Proof.
  unfold create_seating_plan, bind_prog.
  by rewrite generate_random_latin_square_run.
Qed.

(** What a block that returns has done, in terms of the shuffles its
    seating plan draws. *)
Lemma play_block_inv players block_count df_all w df' w' :
  play_block players block_count df_all w = Ok (df', w') →
  let n := length players in
  let s1 := shuffle (rng_state w) (seq 0 n) in
  let s2 := shuffle s1.2 (seq 0 n) in
  let plan := seating_of players (shuffled_square s1.1 s2.1 n) n in
  1 ≤ n
  ∧ placement <$> df'
    = (placement <$> df_all) ++ block_placements block_count n plan
  ∧ recorded <$> take (length df_all) df' = recorded <$> df_all
  ∧ n * n ≤ length (stdin w)
  ∧ w' = World s2.2 (drop (n * n) (stdin w)).
Proof.
  intros Hrun n s1 s2 plan. unfold play_block in Hrun.
  unfold bind_prog at 1 in Hrun.
  destruct players as [|player rest].
  { by rewrite create_seating_plan_nil in Hrun. }
  set (players := player :: rest) in *.
  assert (1 ≤ n) as Hn by (unfold n; simpl; lia).
  rewrite create_seating_plan_run in Hrun by done.
  fold n s1 s2 plan in Hrun.
  apply rounds_loop_inv in Hrun. cbv zeta in Hrun.
  unfold plan in Hrun. rewrite rounds_placements in Hrun.
  rewrite block_placements_length, seating_of_length in Hrun.
  fold plan in Hrun. simpl in Hrun.
  destruct Hrun as (Hp & Hr & Hl & ->). done.
Qed.

Lemma placements_players (P : nat * nat * string * nat → Prop)
    `{∀ t, Decision (P t)} (new : list Ledger.row) block_count n plan :
  placement <$> new = block_placements block_count n plan →
  Ledger.Spieler <$> filter (λ x, P (placement x)) new
  = Plan.Spieler
      <$> filter
            (λ row, P (block_count, Plan.Runde row + (block_count - 1) * n,
                       Plan.Spieler row, Plan.Platz row))
            plan.
Proof.
  intros Hnew.
  trans ((λ t : nat * nat * string * nat, t.1.2)
           <$> filter P (placement <$> new)).
  - by rewrite filter_fmap_comm, <-list_fmap_compose.
  - rewrite Hnew. unfold block_placements.
    by rewrite filter_fmap_comm, <-list_fmap_compose.
Qed.

Lemma play_block_new players block_count df_all w df' w' :
  play_block players block_count df_all w = Ok (df', w') →
  let n := length players in
  let s1 := shuffle (rng_state w) (seq 0 n) in
  let s2 := shuffle s1.2 (seq 0 n) in
  placement <$> drop (length df_all) df'
  = block_placements block_count n
      (seating_of players (shuffled_square s1.1 s2.1 n) n).
Proof.
  intros (_ & Hp & _)%play_block_inv. simpl.
  rewrite fmap_drop, Hp, drop_app_length'; [done|].
  by rewrite length_fmap.
Qed.

(** X6.  A block that returns has drawn one seating plan and appended its
    rows in their order, each with the block number and with its round
    shifted by the [n] rounds of every earlier block; the rows that were
    there keep their recorded columns, and [n * n] lines of input are
    consumed. *)
Theorem play_block_frame players block_count df_all w df' w' :
  play_block players block_count df_all w = Ok (df', w') →
  ∃ plan w1,
    create_seating_plan players w = Ok (plan, w1)
    ∧ placement <$> df'
      = (placement <$> df_all)
        ++ block_placements block_count (length players) plan
    ∧ recorded <$> take (length df_all) df' = recorded <$> df_all
    ∧ length df' = length df_all + length players * length players
    ∧ stdin w' = drop (length players * length players) (stdin w).
Proof.
  intros Hrun. apply play_block_inv in Hrun as (Hn & Hp & Hr & Hl & ->).
  eexists _, _. split; [by apply create_seating_plan_run|].
  split; [exact Hp|]. split; [exact Hr|]. split; [|done].
  apply (f_equal length) in Hp.
  rewrite length_app, !length_fmap, block_placements_length in Hp.
  by rewrite seating_of_length in Hp.
Qed.

(** X7.  Among the rows that a block appends, those of each of its rounds
    hold every player once: no player is scored twice or left out in a
    round. *)
Theorem play_block_round_players players block_count df_all w df' w' r :
  play_block players block_count df_all w = Ok (df', w') →
  1 ≤ r ≤ length players →
  Ledger.Spieler
    <$> filter (λ x, Ledger.Runde x = r + (block_count - 1) * length players)
          (drop (length df_all) df')
  ≡ₚ players.
Proof.
  intros Hrun Hr. apply play_block_new in Hrun. simpl in Hrun.
  pose proof (placements_players
                (λ t, t.1.1.2 = r + (block_count - 1) * length players)
                _ _ _ _ Hrun) as Heq.
  simpl in Heq. rewrite Heq.
  rewrite (list_filter_iff _ (λ row, Plan.Runde row = (r - 1) + 1))
    by (intros row; lia).
  apply shuffled_seating_round_players; [apply shuffle_perm..|lia].
Qed.

(** X8.  Among the rows that a block appends, those of each seat hold every
    player once: within a block every player sits on every seat exactly
    once. *)
Theorem play_block_seat_players players block_count df_all w df' w' seat :
  play_block players block_count df_all w = Ok (df', w') →
  1 ≤ seat ≤ length players →
  Ledger.Spieler
    <$> filter (λ x, Ledger.Platz x = seat) (drop (length df_all) df')
  ≡ₚ players.
Proof.
  intros Hrun Hseat. apply play_block_new in Hrun. simpl in Hrun.
  pose proof (placements_players (λ t, t.2 = seat) _ _ _ _ Hrun) as Heq.
  simpl in Heq. rewrite Heq.
  rewrite (list_filter_iff _ (λ row, Plan.Platz row = (seat - 1) + 1))
    by (intros row; lia).
  apply shuffled_seating_seat_players; [apply shuffle_perm..|lia].
Qed.

(** ** The loop over the blocks *)

Lemma repeat_each_app n xs ys :
  repeat_each n (xs ++ ys) = repeat_each n xs ++ repeat_each n ys.
Proof. unfold repeat_each. by rewrite fmap_app, concat_app. Qed.

Lemma repeat_each_fmap (f : nat → nat) n xs :
  f <$> repeat_each n xs = repeat_each n (f <$> xs).
Proof.
  unfold repeat_each. rewrite concat_fmap_fmap, <-!list_fmap_compose.
  f_equal. apply list_fmap_ext. intros _ x _. simpl. apply fmap_replicate.
Qed.

Lemma fmap_const_replicate {A B} (c : B) (l : list A) :
  (λ _, c) <$> l = replicate (length l) c.
Proof. induction l as [|x l IH]; [done|]. simpl. by f_equal. Qed.

Lemma seating_of_rounds players latin_sq n :
  Plan.Runde <$> seating_of players latin_sq n = repeat_each n (seq 1 n).
Proof.
  unfold seating_of, repeat_each.
  rewrite concat_fmap_fmap, seq_1_fmap, <-!list_fmap_compose. f_equal.
  apply list_fmap_ext. intros _ r _. simpl.
  rewrite <-list_fmap_compose.
  etrans; [apply (fmap_const_replicate (r + 1) (seq 0 n))|].
  by rewrite length_seq.
Qed.

Lemma block_placements_rounds block_count n players latin_sq :
  (λ t : nat * nat * string * nat, t.1.1.2)
    <$> block_placements block_count n (seating_of players latin_sq n)
  = repeat_each n (seq (1 + (block_count - 1) * n) n).
Proof.
  unfold block_placements. rewrite <-list_fmap_compose.
  trans ((λ r, r + (block_count - 1) * n)
           <$> (Plan.Runde <$> seating_of players latin_sq n)).
  { by rewrite <-list_fmap_compose. }
  rewrite seating_of_rounds, repeat_each_fmap. f_equal.
  set (c := (block_count - 1) * n).
  replace (seq (1 + c) n) with (Nat.add c <$> seq 1 n)
    by (rewrite fmap_add_seq; f_equal; lia).
  apply list_fmap_ext. intros _ r _. simpl. lia.
Qed.

Lemma block_placements_blocks block_count n players latin_sq :
  (λ t : nat * nat * string * nat, t.1.1.1)
    <$> block_placements block_count n (seating_of players latin_sq n)
  = replicate (n * n) block_count.
Proof.
  unfold block_placements. rewrite <-list_fmap_compose.
  etrans; [apply (fmap_const_replicate block_count)|].
  by rewrite seating_of_length.
Qed.

Lemma placement_Runde (l : list Ledger.row) :
  Ledger.Runde <$> l
  = (λ t : nat * nat * string * nat, t.1.1.2) <$> (placement <$> l).
Proof. by rewrite <-list_fmap_compose. Qed.

Lemma placement_Block (l : list Ledger.row) :
  Ledger.Block <$> l
  = (λ t : nat * nat * string * nat, t.1.1.1) <$> (placement <$> l).
Proof. by rewrite <-list_fmap_compose. Qed.

(** What the loop over the blocks has done when it ends on the answer
    that stops it. *)
Lemma block_loop_inv fuel players block_count df_all w blocks df' w' :
  block_loop fuel players block_count df_all w = Ok (Some (blocks, df'), w') →
  let n := length players in
  block_count < blocks ∧ 1 ≤ n
  ∧ Ledger.Runde <$> df'
    = (Ledger.Runde <$> df_all)
      ++ repeat_each n
           (seq (1 + block_count * n) ((blocks - block_count) * n))
  ∧ Ledger.Block <$> df'
    = (Ledger.Block <$> df_all)
      ++ repeat_each (n * n) (seq (block_count + 1) (blocks - block_count)).
Proof.
  revert block_count df_all w.
  induction fuel as [|fuel IH]; intros b0 df_all w Hrun; [done|].
  simpl in Hrun. unfold bind_prog at 1 in Hrun.
  destruct (play_block players (b0 + 1) df_all w) as [[df1 w1]|e] eqn:Hblock;
    [|done].
  apply play_block_inv in Hblock as (Hn & Hp & _ & _ & Hw1).
  assert (Ledger.Runde <$> df1
          = (Ledger.Runde <$> df_all)
            ++ repeat_each (length players)
                 (seq (1 + b0 * length players) (length players))) as HR.
  { rewrite (placement_Runde df1), Hp, fmap_app, <-placement_Runde.
    rewrite block_placements_rounds. by rewrite Nat.add_sub. }
  assert (Ledger.Block <$> df1
          = (Ledger.Block <$> df_all)
            ++ repeat_each (length players * length players)
                 (seq (b0 + 1) 1)) as HB.
  { rewrite (placement_Block df1), Hp, fmap_app, <-placement_Block.
    rewrite block_placements_blocks. unfold repeat_each. simpl.
    by rewrite app_nil_r. }
  clear Hp Hw1. unfold bind_prog at 1 in Hrun.
  destruct (input w1) as [[weitermachen w2]|e]; [|done].
  destruct (decide (strip_lower weitermachen = "n"%string)).
  - injection Hrun as <- <- <-. cbv zeta.
    replace (b0 + 1 - b0) with 1 by lia. rewrite Nat.mul_1_l.
    split_and!; [lia|done|done|done].
  - apply IH in Hrun as (Hlt & _ & HR' & HB'). cbv zeta.
    split_and!; [lia|done| |].
    + rewrite HR', HR, <-app_assoc, <-repeat_each_app. do 2 f_equal.
      replace ((blocks - b0) * length players)
        with (length players + (blocks - (b0 + 1)) * length players) by nia.
      rewrite seq_app. do 2 f_equal. lia.
    + rewrite HB', HB, <-app_assoc, <-repeat_each_app. do 2 f_equal.
      replace (blocks - b0) with (1 + (blocks - (b0 + 1))) by lia.
      by rewrite seq_app.
Qed.

Lemma nunique_ge_2 (l : list nat) x y :
  x ∈ l → y ∈ l → x ≠ y → 2 ≤ nunique l.
Proof.
  intros Hx Hy Hne. unfold nunique.
  assert ([x; y] ⊆+ remove_dups l) as Hsub.
  { apply NoDup_submseteq.
    - apply NoDup_cons. split; [|apply NoDup_singleton].
      by intros ->%list_elem_of_singleton.
    - intros z [->|[->|Hz%elem_of_nil]%elem_of_cons]%elem_of_cons;
        [by apply elem_of_remove_dups..|done]. }
  by apply submseteq_length in Hsub.
Qed.

Lemma repeat_each_elem n xs x :
  1 ≤ n → x ∈ xs → x ∈ repeat_each n xs.
Proof.
  intros Hn Hx. unfold repeat_each.
  apply list_elem_of_In, in_concat. exists (replicate n x). split.
  - apply list_elem_of_In, list_elem_of_fmap. by exists x.
  - apply list_elem_of_In. destruct n; [lia|]. by left.
Qed.

(** X9.  When [main] ends on the answer that stops it, it has played one
    block or more; the rounds of the table are 1, 2, ... up to 7 per block
    played, each on 7 consecutive rows, and the blocks are 1, 2, ..., each on
    49 consecutive rows; the final analysis has fitted the model: the branch
    for fewer than two rounds is never taken. *)
Theorem main_rounds fuel w blocks df_all final_korr w' :
  main fuel w = Ok (Some (blocks, df_all, final_korr), w') →
  1 ≤ blocks
  ∧ Ledger.Runde <$> df_all = repeat_each 7 (seq 1 (blocks * 7))
  ∧ Ledger.Block <$> df_all = repeat_each 49 (seq 1 blocks)
  ∧ is_Some final_korr.
Proof.
  unfold main, bind_prog. intros Hrun.
  destruct (block_loop fuel main_players 0 [] w) as [[[[b df]|] w1]|e] eqn:Hloop;
    [| |done]; [|done].
  apply block_loop_inv in Hloop as (Hb & _ & HR & HB). simpl in HR, HB.
  rewrite Nat.sub_0_r in HR, HB.
  assert (2 ≤ nunique (Ledger.Runde <$> df)) as Hn.
  { rewrite HR. apply (nunique_ge_2 _ 1 2); [| |done];
      apply repeat_each_elem; [lia| |lia|]; apply elem_of_seq; lia. }
  unfold lift, final_analysis in Hrun. rewrite decide_True in Hrun by done.
  destruct (mixedlm_fit (model_frame df)) as [[c [fitted|e]]|e]; [|done..].
  simpl in Hrun. injection Hrun as <- <- <- _.
  split_and!; [lia|done|done|by eexists].
Qed.

(** ** How the program can end *)

Lemma play_round_raises seating_plan block_count n r df_all w e :
  play_round seating_plan block_count n r df_all w = Raise e →
  e = EOFError ∨ raised_by_model e.
Proof.
  unfold play_round. set (round_plan := filter _ seating_plan).
  unfold bind_prog. intros Hrun.
  destruct (decide (length round_plan ≤ length (stdin w))) as [Hlen|Hlen].
  - destruct (record_round_returns block_count r n round_plan df_all w Hlen)
      as [new Hrec].
    rewrite Hrec in Hrun. unfold lift, correct in Hrun.
    destruct (decide _); [|done].
    destruct (mixedlm_fit (model_frame (df_all ++ new)))
      as [[c [fitted|e']]|e'] eqn:Hfit; [done| |].
    + simpl in Hrun. injection Hrun as <-. right. right.
      eexists _, _. split; [exact Hfit|reflexivity].
    + simpl in Hrun. injection Hrun as <-. right. left. eauto.
  - rewrite record_round_eof in Hrun by lia. injection Hrun as <-. by left.
Qed.

Lemma rounds_loop_raises seating_plan block_count n rs df_all w e :
  for_each_prog rs
    (λ r df_all,
       bind_prog (play_round seating_plan block_count n r df_all)
         (λ out, ret_prog out.1))
    df_all w
  = Raise e →
  e = EOFError ∨ raised_by_model e.
Proof.
  revert df_all w. induction rs as [|r rs IH]; intros df_all w Hrun; [done|].
  simpl in Hrun. unfold bind_prog at 1 in Hrun.
  unfold bind_prog at 1 in Hrun.
  destruct (play_round seating_plan block_count n r df_all w)
    as [[[df1 pivot] w1]|e'] eqn:Hround.
  - unfold ret_prog in Hrun. by apply IH in Hrun.
  - injection Hrun as <-. by apply play_round_raises in Hround.
Qed.

Lemma play_block_raises players block_count df_all w e :
  players ≠ [] →
  play_block players block_count df_all w = Raise e →
  e = EOFError ∨ raised_by_model e.
Proof.
  intros Hp Hrun. unfold play_block in Hrun. unfold bind_prog at 1 in Hrun.
  rewrite create_seating_plan_run in Hrun
    by (destruct players; [done|simpl; lia]).
  by apply rounds_loop_raises in Hrun.
Qed.

Lemma block_loop_raises fuel players block_count df_all w e :
  players ≠ [] →
  block_loop fuel players block_count df_all w = Raise e →
  e = EOFError ∨ raised_by_model e.
Proof.
  intros Hp. revert block_count df_all w.
  induction fuel as [|fuel IH]; intros b0 df_all w Hrun; [done|].
  simpl in Hrun. unfold bind_prog at 1 in Hrun.
  destruct (play_block players (b0 + 1) df_all w) as [[df1 w1]|e'] eqn:Hblock.
  - unfold bind_prog at 1 in Hrun. unfold input in Hrun.
    destruct (stdin w1) as [|weitermachen rest].
    + injection Hrun as <-. by left.
    + destruct (decide _); [done|]. by apply IH in Hrun.
  - injection Hrun as <-. by apply play_block_raises in Hblock.
Qed.

(** X10.  The lookups that [main] and the two functions it calls make
    themselves never fail: what the model of [main] raises is [EOFError],
    when standard input ends, or comes from the mixed model, from its fit or
    from the read of its fitted values.  No index into the design, the
    players or the scores of a round is out of range or missing, and the
    seating plan of the seven players is never the empty frame.  (The calls
    that plot and print are no part of the model.) *)
Theorem main_raises fuel w e :
  main fuel w = Raise e →
  e = EOFError ∨ raised_by_model e.
Proof.
  unfold main, bind_prog. intros Hrun.
  destruct (block_loop fuel main_players 0 [] w) as [[[[b df]|] w1]|e']
    eqn:Hloop.
  - unfold lift, final_analysis in Hrun. destruct (decide _); [|done].
    destruct (mixedlm_fit (model_frame df)) as [[c [fitted|e']]|e'] eqn:Hfit;
      [done| |].
    + simpl in Hrun. injection Hrun as <-. right. right.
      eexists _, _. split; [exact Hfit|reflexivity].
    + simpl in Hrun. injection Hrun as <-. right. left. eauto.
  - done.
  - injection Hrun as <-. by apply block_loop_raises in Hloop.
Qed.

Lemma block_loop_within_fuel fuel players block_count df_all w :
  length (stdin w) < fuel →
  within_fuel (block_loop fuel players block_count df_all w).
Proof.
  revert block_count df_all w.
  induction fuel as [|fuel IH]; intros b0 df_all w Hlen; [lia|].
  simpl. unfold bind_prog at 1.
  destruct (play_block players (b0 + 1) df_all w) as [[df1 w1]|e] eqn:Hblock;
    [|done].
  apply play_block_inv in Hblock as (_ & _ & _ & _ & ->).
  unfold bind_prog at 1. unfold input. simpl.
  destruct (drop _ (stdin w)) as [|weitermachen rest] eqn:Hdrop; [done|].
  destruct (decide _); [done|]. apply IH. simpl.
  apply (f_equal length) in Hdrop. rewrite length_drop in Hdrop.
  simpl in Hdrop. lia.
Qed.

(** X11.  [main] ends on every finite input: with more fuel than standard
    input has lines, the loop over the blocks does not run out of fuel, so
    that the program returns or raises. *)
Theorem main_within_fuel fuel w :
  length (stdin w) < fuel → within_fuel (main fuel w).
Proof.
  intros Hlen. unfold main, bind_prog.
  pose proof (block_loop_within_fuel fuel main_players 0 [] w Hlen) as Hloop.
  destruct (block_loop fuel main_players 0 [] w) as [[[[b df]|] w1]|e];
    [|done..].
  unfold lift. by destruct (final_analysis df).
Qed.

(** ** The first round, and the final analysis *)

Lemma nunique_same (l : list nat) c :
  Forall (λ x, x = c) l → nunique l ≤ 1.
Proof.
  intros Hl. unfold nunique.
  assert (remove_dups l ⊆+ [c]) as Hsub.
  { apply NoDup_submseteq; [apply NoDup_remove_dups|].
    intros x Hx. rewrite elem_of_remove_dups in Hx.
    rewrite Forall_forall in Hl. rewrite (Hl x Hx). by left. }
  by apply submseteq_length in Hsub.
Qed.

(** X12.  The first round of the program, on the empty table, never calls
    the fit: with a line of input for every seat it returns, whatever the
    fit would do, and its table is the naive correction of the rows it has
    recorded. *)
Theorem play_round_first seating_plan block_count n r w :
  length (filter (λ row, Plan.Runde row = r) seating_plan)
  ≤ length (stdin w) →
  ∃ new w',
    record_round block_count r n
      (filter (λ row, Plan.Runde row = r) seating_plan) [] w
    = Ok (new, w')
    ∧ play_round seating_plan block_count n r [] w
      = Ok ((naive_correction new, aggregate (naive_correction new)), w').
Proof.
  intros Hlen. unfold play_round, bind_prog.
  destruct (record_round_returns block_count r n _ [] w Hlen) as [new Hrec].
  rewrite Hrec.
  destruct (record_round_shape _ _ _ _ _ _ _ _ Hrec) as (new' & Heq & Hnew).
  apply app_inv_head in Heq as <-. simpl.
  assert (nunique (Ledger.Runde <$> new) < 2) as Hn.
  { apply Nat.lt_succ_r, (nunique_same _ (r + (block_count - 1) * n)).
    apply Forall_fmap, Forall_forall. intros x [i Hx]%list_elem_of_lookup_1.
    destruct (Forall2_lookup_r _ _ _ _ _ Hnew Hx) as (row & _ & _ & HR & _).
    exact HR. }
  unfold lift. rewrite correct_naive by done.
  by eexists _, _.
Qed.

(** X13.  On a table that the correction pass has returned from a fit, the
    final analysis fits the same model again and its column [Final_korr] is
    the column [Punkte_korr] that the table already has. *)
Theorem final_analysis_corrected df_all df' :
  correct df_all = Ok df' →
  2 ≤ nunique (Ledger.Runde <$> df_all) →
  final_analysis df' = Ok (Some (Ledger.Punkte_korr <$> df')).
Proof.
  intros Hcor Hn. pose proof (correct_recorded _ _ Hcor) as Hrec.
  unfold final_analysis.
  rewrite (recorded_Runde df'), Hrec, <-recorded_Runde.
  rewrite decide_True by done.
  rewrite (recorded_model_frame df'), Hrec, <-recorded_model_frame.
  rewrite correct_fitted in Hcor by done.
  destruct (mixedlm_fit (model_frame df_all)) as [[c [fitted|e]]|e];
    [|done..].
  simpl in *. injection Hcor as <-. do 2 f_equal.
  apply list_eq. intros i.
  rewrite list_lookup_imap, list_lookup_fmap, set_korr_vorhergesagt_lookup.
  by destruct (df_all !! i).
Qed.

(** X14.  A round with a seat or more that is recorded into a table that
    holds a row of another round calls the fit on the table with the rows of
    the round, and when the fit raises on that table the round raises the
    same error: the rows it has read are lost with it.  The fit may have
    returned on every earlier table. *)
Theorem play_round_fit_raises seating_plan block_count n r df_all w df1 w1
    x e :
  1 ≤ length (filter (λ row, Plan.Runde row = r) seating_plan) →
  record_round block_count r n
    (filter (λ row, Plan.Runde row = r) seating_plan) df_all w
  = Ok (df1, w1) →
  x ∈ df_all →
  Ledger.Runde x ≠ r + (block_count - 1) * n →
  mixedlm_fit (model_frame df1) = Raise e →
  play_round seating_plan block_count n r df_all w = Raise e.
Proof.
  intros Hne Hrec Hx HR Hfit. unfold play_round, bind_prog.
  rewrite Hrec.
  destruct (record_round_shape _ _ _ _ _ _ _ _ Hrec) as (new & -> & Hnew).
  destruct new as [|y new].
  { apply Forall2_length in Hnew. simpl in Hnew. lia. }
  apply Forall2_cons_inv_r in Hnew as (row & rest & (_ & Hy & _) & _ & _).
  unfold lift. rewrite correct_fitted.
  - by rewrite Hfit.
  - apply (nunique_ge_2 _ (Ledger.Runde x) (Ledger.Runde y)).
    + apply list_elem_of_fmap. exists x. split; [done|].
      apply elem_of_app. by left.
    + apply list_elem_of_fmap. exists y. split; [done|].
      apply elem_of_app. right. by left.
    + by rewrite Hy.
Qed.

(** ** Runs that return *)

(** The rounds of a block return when standard input holds a line for every
    row they read and the fit returns results whose fitted values can be
    read. *)
Lemma rounds_loop_returns seating_plan block_count n rs df_all w :
  length
    (concat
       ((λ r, (λ row, (block_count, r + (block_count - 1) * n,
                       Plan.Spieler row, Plan.Platz row))
                <$> filter (λ row, Plan.Runde row = r) seating_plan)
          <$> rs))
  ≤ length (stdin w) →
  model_returns →
  ∃ df' w',
    for_each_prog rs
      (λ r df_all,
         bind_prog (play_round seating_plan block_count n r df_all)
           (λ out, ret_prog out.1))
      df_all w
    = Ok (df', w').
Proof.
  intros Hlen Hfit. revert df_all w Hlen.
  induction rs as [|r rs IH]; intros df_all w Hlen; [by eexists _, _|].
  rewrite fmap_cons in Hlen. simpl in Hlen.
  rewrite length_app, length_fmap in Hlen.
  destruct (play_round_returns seating_plan block_count n r df_all w)
    as ([df1 pv] & w1 & Hrun); [lia|done|].
  pose proof (play_round_inv _ _ _ _ _ _ _ _ _ Hrun) as (_ & _ & _ & Hw).
  simpl. unfold bind_prog at 1. unfold bind_prog at 1. rewrite Hrun.
  unfold ret_prog at 1. simpl. apply IH.
  rewrite Hw. simpl. rewrite length_drop. lia.
Qed.

(** A block on enough input, with a fit that returns results whose fitted
    values can be read. *)
Lemma play_block_run players block_count df_all w :
  players ≠ [] →
  length players * length players ≤ length (stdin w) →
  model_returns →
  ∃ df' w', play_block players block_count df_all w = Ok (df', w').
Proof.
  intros Hp Hlen Hfit. unfold play_block, bind_prog at 1.
  assert (1 ≤ length players) as Hn by (destruct players; [done|simpl; lia]).
  rewrite create_seating_plan_run by done.
  apply rounds_loop_returns; [|done].
  rewrite rounds_placements, block_placements_length, seating_of_length.
  done.
Qed.

(** X15.  A block returns when the list of players is not empty, standard
    input holds [n * n] lines or more and the fit returns, on every table,
    results whose fitted values can be read: whatever the lines are, no score
    is refused; the block has then read exactly [n * n] lines and appended
    [n * n] rows. *)
Theorem play_block_returns players block_count df_all w :
  players ≠ [] →
  length players * length players ≤ length (stdin w) →
  model_returns →
  ∃ df' w',
    play_block players block_count df_all w = Ok (df', w')
    ∧ length df' = length df_all + length players * length players
    ∧ stdin w' = drop (length players * length players) (stdin w).
Proof.
  intros Hp Hlen Hfit.
  destruct (play_block_run players block_count df_all w)
    as (df' & w' & Hblock); [done..|].
  exists df', w'. split; [done|].
  apply play_block_inv in Hblock as (_ & Hpl & _ & _ & ->).
  split; [|done]. apply (f_equal length) in Hpl.
  rewrite !length_fmap, length_app, block_placements_length,
    seating_of_length, length_fmap in Hpl.
  done.
Qed.

(** X16.  On an input that holds the scores of a block and then an answer,
    with a fit that returns, on every table, results whose fitted values can
    be read, the loop over the blocks plays the block and reads the answer:
    on an answer that is n once stripped and lowered it stops with the table
    of the block, and on every other answer it goes on with the next block
    from that table and the lines that follow. *)
Theorem block_loop_answer fuel players block_count df_all w scores answer
    rest :
  players ≠ [] →
  stdin w = scores ++ answer :: rest →
  length scores = length players * length players →
  model_returns →
  ∃ df' g,
    play_block players (block_count + 1) df_all w
    = Ok (df', World g (answer :: rest))
    ∧ block_loop (S fuel) players block_count df_all w
      = if decide (strip_lower answer = "n"%string)
        then Ok (Some (block_count + 1, df'), World g rest)
        else block_loop fuel players (block_count + 1) df' (World g rest).
Proof.
  intros Hp Hin Hlen Hfit.
  destruct (play_block_run players (block_count + 1) df_all w)
    as (df' & w1 & Hblock); [done|rewrite Hin, length_app; lia|done|].
  pose proof (play_block_inv _ _ _ _ _ _ Hblock) as (_ & _ & _ & _ & Hw).
  rewrite Hin, <-Hlen, drop_app_length in Hw.
  rewrite Hw in Hblock. eexists _, _. split; [exact Hblock|].
  simpl. unfold bind_prog at 1. rewrite Hblock.
  unfold bind_prog at 1, input. simpl. by destruct (decide _).
Qed.

(** X17.  With a fit that returns, on every table, results whose fitted
    values can be read, 49 lines and then an answer that is n once stripped
    and lowered make [main] return after one block: the table has 49 rows,
    the final analysis has fitted its model, and the lines after the answer
    are left unread. *)
Theorem main_returns fuel w scores answer rest :
  stdin w = scores ++ answer :: rest →
  length scores = 49 →
  strip_lower answer = "n"%string →
  model_returns →
  ∃ df_all final_korr w',
    main (S fuel) w = Ok (Some (1, df_all, Some final_korr), w')
    ∧ length df_all = 49
    ∧ length final_korr = 49
    ∧ stdin w' = rest.
Proof.
  intros Hin Hlen Hanswer Hfit.
  destruct (play_block_run main_players 1 [] w) as (df' & w1 & Hblock);
    [done|rewrite Hin, length_app; simpl; lia|done|].
  pose proof (play_block_inv _ _ _ _ _ _ Hblock) as (_ & _ & _ & _ & Hw).
  rewrite Hin in Hw. change (length main_players * length main_players)
    with 49 in Hw. rewrite <-Hlen, drop_app_length in Hw.
  assert (block_loop (S fuel) main_players 0 [] w
          = Ok (Some (1, df'), World (rng_state w1) rest)) as Hloop.
  { simpl. unfold bind_prog at 1.
    change (play_block main_players 1 [] w = Ok (df', w1)) in Hblock.
    rewrite Hblock. unfold bind_prog at 1, input. rewrite Hw. simpl.
    by rewrite decide_True. }
  pose proof (block_loop_inv _ _ _ _ _ _ _ _ Hloop) as (_ & _ & HR & _).
  simpl in HR.
  assert (2 ≤ nunique (Ledger.Runde <$> df')) as Hn.
  { rewrite HR. apply (nunique_ge_2 _ 1 2); [| |done];
      (apply repeat_each_elem; [lia|]);
      repeat (apply elem_of_cons; first [by left|right]). }
  assert (length df' = 49) as Hdf.
  { apply play_block_inv in Hblock as (_ & Hp & _).
    apply (f_equal length) in Hp.
    rewrite length_fmap, length_app, block_placements_length,
      seating_of_length in Hp.
    done. }
  destruct (Hfit (model_frame df')) as (fit & fitted & Hmodel & Hread).
  unfold main, bind_prog. rewrite Hloop.
  unfold lift, final_analysis. rewrite decide_True by done.
  rewrite Hmodel. simpl. rewrite Hread. simpl.
  eexists _, _, _. split; [reflexivity|].
  split_and!; [done| |done].
  by rewrite length_imap.
Qed.

(** ** Every round holds every player *)

Lemma placement_eq (x y : Ledger.row) :
  placement x = placement y →
  Ledger.Runde x = Ledger.Runde y ∧ Ledger.Spieler x = Ledger.Spieler y.
Proof. unfold placement. by intros [= _ -> -> _]. Qed.

(** A table stays full when the rows of one round, with a row of every
    player, are appended to it. *)
Lemma full_rounds_round players (df_all df' : list Ledger.row) block_count
    round (round_plan : list Plan.row) :
  full_rounds players df_all →
  placement <$> df'
  = (placement <$> df_all)
    ++ ((λ row, (block_count, round, Plan.Spieler row, Plan.Platz row))
          <$> round_plan) →
  Plan.Spieler <$> round_plan ≡ₚ players →
  full_rounds players df'.
Proof.
  intros Hfull Hp Hperm x Hx.
  assert (∀ t, t ∈ placement <$> df' →
            ∃ z, z ∈ df' ∧ placement z = t) as Hback.
  { intros t (z & -> & Hz)%list_elem_of_fmap. eauto. }
  assert (placement x ∈ placement <$> df') as Hin
    by (apply list_elem_of_fmap; eauto).
  rewrite Hp, elem_of_app in Hin.
  destruct Hin as [(x0 & Heq & Hx0)%list_elem_of_fmap
                  |(row & Heq & Hrow)%list_elem_of_fmap].
  - apply placement_eq in Heq as [HR HS]. rewrite HR, HS.
    destruct (Hfull x0 Hx0) as [Hpl Hall]. split; [done|].
    intros p (z0 & Hz0 & HzR & HzS)%Hall.
    destruct (Hback (placement z0)) as (z & Hz & Hzeq).
    { rewrite Hp, elem_of_app. left. apply list_elem_of_fmap. eauto. }
    apply placement_eq in Hzeq as [HR' HS'].
    exists z. by rewrite HR', HS'.
  - assert (Ledger.Runde x = round ∧ Ledger.Spieler x = Plan.Spieler row)
      as [HR HS] by (unfold placement in Heq; by injection Heq).
    rewrite HR, HS. split.
    { rewrite <-Hperm. apply list_elem_of_fmap. eauto. }
    intros p Hpin. rewrite <-Hperm in Hpin.
    apply list_elem_of_fmap in Hpin as (row' & -> & Hrow').
    destruct (Hback (block_count, round, Plan.Spieler row', Plan.Platz row'))
      as (z & Hz & Hzeq).
    { rewrite Hp, elem_of_app. right.
      apply (list_elem_of_fmap_2
               (λ row, (block_count, round, Plan.Spieler row, Plan.Platz row))).
      done. }
    exists z. split; [done|]. unfold placement in Hzeq.
    by injection Hzeq.
Qed.

Lemma play_round_keeps_full players seating_plan block_count n r df_all w df'
    pivot w' :
  full_rounds players df_all →
  Plan.Spieler <$> filter (λ row, Plan.Runde row = r) seating_plan
  ≡ₚ players →
  play_round seating_plan block_count n r df_all w = Ok ((df', pivot), w') →
  full_rounds players df'.
Proof.
  intros Hfull Hperm (Hp & _)%play_round_inv.
  by eapply full_rounds_round.
Qed.

(** X20.  A round keeps the table full: when every round of the table
    holds a row of every player, and the seating of the round seats every
    player once, the table that the round returns holds a row of every
    player in every round again, and the pivot of the round is the pivot of
    that table. *)
Theorem play_round_full_rounds players seating_plan block_count n r df_all w
    df' pivot w' :
  full_rounds players df_all →
  Plan.Spieler <$> filter (λ row, Plan.Runde row = r) seating_plan
  ≡ₚ players →
  play_round seating_plan block_count n r df_all w = Ok ((df', pivot), w') →
  full_rounds players df' ∧ pivot = aggregate df'.
Proof.
  intros Hfull Hperm Hrun.
  split; [by eapply play_round_keeps_full|].
  unfold play_round, bind_prog in Hrun.
  destruct (record_round _ _ _ _ _ _) as [[df1 w1]|e]; [|done].
  unfold lift in Hrun. destruct (correct df1) as [df2|e]; [|done].
  unfold ret_prog in Hrun. by injection Hrun as <- <- _.
Qed.

Lemma rounds_loop_full players seating_plan block_count n rs df_all w df' w' :
  full_rounds players df_all →
  (∀ r, r ∈ rs →
     Plan.Spieler <$> filter (λ row, Plan.Runde row = r) seating_plan
     ≡ₚ players) →
  for_each_prog rs
    (λ r df_all,
       bind_prog (play_round seating_plan block_count n r df_all)
         (λ out, ret_prog out.1))
    df_all w
  = Ok (df', w') →
  full_rounds players df'.
Proof.
  revert df_all w. induction rs as [|r rs IH]; intros df_all w Hfull Hperm Hrun.
  - by injection Hrun as <- _.
  - simpl in Hrun. unfold bind_prog at 1 in Hrun.
    unfold bind_prog at 1 in Hrun.
    destruct (play_round seating_plan block_count n r df_all w)
      as [[[df1 pivot] w1]|e] eqn:Hround; [|done].
    unfold ret_prog in Hrun. simpl in Hrun.
    apply (IH df1 w1); [|intros r' Hr'; apply Hperm; by right|done].
    eapply play_round_keeps_full; [done| |done]. apply Hperm. by left.
Qed.

Lemma play_block_full players block_count df_all w df' w' :
  full_rounds players df_all →
  play_block players block_count df_all w = Ok (df', w') →
  full_rounds players df'.
Proof.
  intros Hfull Hrun. unfold play_block in Hrun.
  unfold bind_prog at 1 in Hrun.
  destruct players as [|player rest].
  { by rewrite create_seating_plan_nil in Hrun. }
  set (players := player :: rest) in *.
  rewrite create_seating_plan_run in Hrun by (unfold players; simpl; lia).
  eapply rounds_loop_full; [exact Hfull| |exact Hrun].
  intros r Hr%elem_of_seq. rewrite set_block_round.
  unfold set_block. rewrite <-list_fmap_compose.
  rewrite (list_fmap_ext _ Plan.Spieler _ (λ _ _ _, eq_refl)).
  replace r with (r - 1 + 1) by lia.
  apply shuffled_seating_round_players; [apply shuffle_perm..|lia].
Qed.

Lemma block_loop_full fuel players block_count df_all w blocks df' w' :
  full_rounds players df_all →
  block_loop fuel players block_count df_all w = Ok (Some (blocks, df'), w') →
  full_rounds players df'.
Proof.
  revert block_count df_all w.
  induction fuel as [|fuel IH]; intros b0 df_all w Hfull Hrun; [done|].
  simpl in Hrun. unfold bind_prog at 1 in Hrun.
  destruct (play_block players (b0 + 1) df_all w) as [[df1 w1]|e] eqn:Hblock;
    [|done].
  apply play_block_full in Hblock; [|done].
  unfold bind_prog at 1 in Hrun.
  destruct (input w1) as [[weitermachen w2]|e]; [|done].
  destruct (decide (strip_lower weitermachen = "n"%string)).
  - by injection Hrun as _ <- _.
  - by apply IH in Hrun.
Qed.

Lemma repeat_each_elem_inv n xs x : x ∈ repeat_each n xs → x ∈ xs.
Proof.
  unfold repeat_each. intros (l & Hl & Hx)%list_elem_of_In%in_concat.
  apply list_elem_of_In, list_elem_of_fmap in Hl as (y & -> & Hy).
  by apply list_elem_of_In, elem_of_replicate in Hx as [-> _].
Qed.

(** X21.  The table that [main] ends with has no gap: its rounds are the
    rounds 1 to 7 per block played, every row is of one of the seven players,
    and every round holds a row of every one of them, so that no pair of a
    round and a player of the table is without a row. *)
Theorem main_full_rounds fuel w blocks df_all final_korr w' :
  main fuel w = Ok (Some (blocks, df_all, final_korr), w') →
  (∀ r, (∃ x, x ∈ df_all ∧ Ledger.Runde x = r) ↔ 1 ≤ r ≤ blocks * 7)
  ∧ full_rounds main_players df_all
  ∧ ∀ x y, x ∈ df_all → y ∈ df_all →
      ∃ z, z ∈ df_all
           ∧ Ledger.Runde z = Ledger.Runde x
           ∧ Ledger.Spieler z = Ledger.Spieler y.
Proof.
  unfold main, bind_prog. intros Hrun.
  destruct (block_loop fuel main_players 0 [] w) as [[[[b df]|] w1]|e] eqn:Hloop;
    [| |done]; [|done].
  assert (df = df_all ∧ b = blocks) as [<- <-].
  { unfold lift in Hrun. destruct (final_analysis df); [|done].
    by injection Hrun as <- <-. }
  assert (full_rounds main_players df) as Hfull.
  { eapply block_loop_full; [|exact Hloop]. by intros x Hx%elem_of_nil. }
  apply block_loop_inv in Hloop as (Hb & _ & HR & _). simpl in HR.
  rewrite Nat.sub_0_r in HR.
  split_and!; [|done|].
  - intros r. trans (r ∈ Ledger.Runde <$> df).
    { rewrite list_elem_of_fmap. split; intros (x & ? & ?); eauto. }
    rewrite HR. split.
    + intros Hr%repeat_each_elem_inv%elem_of_seq. lia.
    + intros Hr. apply repeat_each_elem; [lia|]. apply elem_of_seq. lia.
  - intros x y Hx Hy. destruct (Hfull x Hx) as [_ Hall].
    destruct (Hfull y Hy) as [Hp _]. by apply Hall.
Qed.

(** X18.  The builder raises on the empty list of players and on no other:
    the design of no player gives a frame without columns, whose sort raises
    [KeyError]. *)
Theorem create_seating_plan_raises players w e :
  create_seating_plan players w = Raise e ↔ players = [] ∧ e = KeyError.
Proof.
  split.
  - intros Hrun. destruct players as [|player rest].
    + rewrite create_seating_plan_nil in Hrun. by injection Hrun as <-.
    + rewrite create_seating_plan_run in Hrun by (simpl; lia). done.
  - intros [-> ->]. apply create_seating_plan_nil.
Qed.

End Program.

Arguments block_loop {rng} shuffle float_of_string mixedlm_fit strip_lower
  fuel players block_count df_all w.
Arguments main {rng} shuffle float_of_string mixedlm_fit strip_lower fuel w.

Arguments World {rng} rng_state stdin.
Arguments rng_state {rng} w.
Arguments stdin {rng} w.
Arguments generate_random_latin_square {rng} shuffle n w.
Arguments create_seating_plan {rng} shuffle players w.
Arguments record_round {rng} float_of_string block_count r n round_plan df_all w.
Arguments play_round {rng} float_of_string mixedlm_fit seating_plan
  block_count n r df_all w.
Arguments play_block {rng} shuffle float_of_string mixedlm_fit players
  block_count df_all w.

(** * The theorems on examples *)

Lemma rotating_shuffle_perm g l : (rotating_shuffle g l).1 ≡ₚ l.
Proof.
  unfold rotating_shuffle, rotate. simpl.
  by rewrite Permutation_app_comm, take_drop.
Qed.

Ltac decide_by_computation := apply (bool_decide_unpack _); vm_compute; exact I.

(** Two floats that a comparison tells apart are different. *)
Ltac floats_differ test :=
  let H := fresh in
  intros H; apply (f_equal test) in H; vm_compute in H; discriminate H.

(** The degenerate design of one player. *)
Example generate_random_latin_square_one :
  generate_random_latin_square rotating_shuffle 1 (World 0 [])
  = Ok ([[0]], World 2 []).
Proof. reflexivity. Qed.

(** C1 on three players, with the shuffles of [rotating_shuffle]. *)
Lemma generate_random_latin_square_latin_three :
  ∃ L w',
    generate_random_latin_square rotating_shuffle 3 (World 0 []) = Ok (L, w')
    ∧ length L = 3
    ∧ (∀ row, row ∈ L → row ≡ₚ seq 0 3)
    ∧ (∀ j, j < 3 → ∃ col, column j L = Some col ∧ col ≡ₚ seq 0 3).
Proof.
  exact (generate_random_latin_square_latin nat rotating_shuffle
           rotating_shuffle_perm 3 (World 0 [])).
Defined.

(** C5 on three players. *)
Lemma create_seating_plan_rows_three :
  1 ≤ length ["A"; "B"; "C"]%string
  ∧ ∃ plan w',
      create_seating_plan rotating_shuffle ["A"; "B"; "C"]%string (World 0 [])
      = Ok (plan, w')
      ∧ length plan = 3 * 3
      ∧ (∀ row, row ∈ plan →
           1 ≤ Plan.Runde row ≤ 3 ∧ 1 ≤ Plan.Platz row ≤ 3)
      ∧ StronglySorted plan_lt plan
      ∧ (∀ r, 1 ≤ r ≤ 3 →
           Plan.Platz <$> filter (λ row, Plan.Runde row = r) plan = seq 1 3)
      ∧ (∀ seat, 1 ≤ seat ≤ 3 →
           Plan.Runde <$> filter (λ row, Plan.Platz row = seat) plan = seq 1 3).
Proof.
  assert (1 ≤ length ["A"; "B"; "C"]%string) as Hn by (simpl; lia).
  split; [exact Hn|].
  exact (create_seating_plan_rows nat rotating_shuffle rotating_shuffle_perm
           ["A"; "B"; "C"]%string (World 0 []) Hn).
Defined.

(** X19 on the players of [main]. *)
Lemma create_seating_plan_own_design_main :
  ∃ latin_sq w1 plan w',
    generate_random_latin_square rotating_shuffle (length main_players)
      (World 0 [])
    = Ok (latin_sq, w1)
    ∧ length latin_sq = length main_players
    ∧ Forall (λ row, length row = length main_players) latin_sq
    ∧ create_seating_plan rotating_shuffle main_players (World 0 [])
      = Ok (plan, w').
Proof.
  exact (create_seating_plan_own_design nat rotating_shuffle
           rotating_shuffle_perm main_players (World 0 [])).
Defined.

(** C2 on one round with the seats 1, 2 and 3 and the raw scores 10, 20
    and 30: every corrected score is zero. *)
Lemma correct_single_round_zero :
  nunique (Ledger.Runde <$> single_round_ledger) = 1
  ∧ ∃ df',
      correct failing_fit single_round_ledger = Ok df'
      ∧ Forall (λ r', Ledger.Punkte_korr r' = Some 0%float) df'.
Proof.
  assert (nunique (Ledger.Runde <$> single_round_ledger) = 1) as Hn
    by reflexivity.
  split; [exact Hn|].
  destruct (correct_single_round failing_fit single_round_ledger Hn)
    as (df' & Hok & Hrows).
  exists df'. split; [exact Hok|].
  unfold single_round_ledger in Hrows.
  apply Forall2_cons_inv_l in Hrows as (r1 & df1 & H1 & Hrows & ->).
  apply Forall2_cons_inv_l in Hrows as (r2 & df2 & H2 & Hrows & ->).
  apply Forall2_cons_inv_l in Hrows as (r3 & df3 & H3 & Hrows & ->).
  apply Forall2_nil_inv_l in Hrows as ->.
  vm_compute in H1. vm_compute in H2. vm_compute in H3.
  repeat constructor; assumption.
Defined.

(** C3 on two rounds of two players. *)
Lemma correct_multi_round_two :
  2 ≤ nunique (Ledger.Runde <$> two_round_ledger)
  ∧ ∃ df',
      correct unconverged_fit two_round_ledger = Ok df'
      ∧ length df' = length two_round_ledger
      ∧ ∀ i r fitted,
          two_round_ledger !! i = Some r →
          [12; 18; 13; 27]%float !! i = Some fitted →
          ∃ r',
            df' !! i = Some r'
            ∧ Ledger.Punkte_vorhergesagt r' = Some fitted
            ∧ Ledger.Punkte_korr r' = Some (Ledger.Punkte r - fitted)%float.
Proof.
  assert (2 ≤ nunique (Ledger.Runde <$> two_round_ledger)) as Hn
    by (vm_compute; lia).
  split; [exact Hn|].
  exact (correct_multi_round unconverged_fit two_round_ledger
           (Results false (Ok [12; 18; 13; 27]%float))
           [12; 18; 13; 27]%float Hn eq_refl eq_refl).
Defined.

(** C4: on two rounds, a fit that raises makes the correction pass raise,
    and so does a fit whose fitted values cannot be read; the fitted values
    of a fit that did not converge are used.  None gives the naive
    centering. *)
Lemma correct_no_fallback :
  2 ≤ nunique (Ledger.Runde <$> two_round_ledger)
  ∧ converged <$> unconverged_fit (model_frame two_round_ledger) = Ok false
  ∧ correct failing_fit two_round_ledger = Raise LinAlgError
  ∧ correct singular_fit two_round_ledger = Raise ValueError
  ∧ correct unconverged_fit two_round_ledger
    ≠ Ok (naive_correction two_round_ledger).
Proof.
  split; [vm_compute; lia|]. do 3 (split; [reflexivity|]).
  floats_differ
    (λ res : result (list Ledger.row),
       match res with
       | Ok (r :: _) =>
           match Ledger.Punkte_korr r with
           | Some v => (v <? -2.25)%float
           | None => false
           end
       | _ => false
       end).
Qed.

(** C4, as the program has it, on two rounds of two players: a fit that
    raises, a fit whose fitted values cannot be read, and a fit that did not
    converge. *)
Lemma correct_fit_outcome_two :
  2 ≤ nunique (Ledger.Runde <$> two_round_ledger)
  ∧ correct failing_fit two_round_ledger = Raise LinAlgError
  ∧ correct singular_fit two_round_ledger = Raise ValueError
  ∧ correct unconverged_fit two_round_ledger
    = Ok (set_korr
            (set_vorhergesagt [12; 18; 13; 27]%float two_round_ledger)).
Proof.
  assert (2 ≤ nunique (Ledger.Runde <$> two_round_ledger)) as Hn
    by (vm_compute; lia).
  split; [exact Hn|]. split_and!.
  - exact (proj1 (correct_fit_outcome failing_fit two_round_ledger Hn)
             LinAlgError eq_refl).
  - exact (proj1 (proj2 (correct_fit_outcome singular_fit two_round_ledger
                           Hn))
             false ValueError eq_refl).
  - exact (proj2 (proj2 (correct_fit_outcome unconverged_fit two_round_ledger
                           Hn))
             false [12; 18; 13; 27]%float eq_refl).
Defined.

(** C7 on a round of three players of which the second types a score that
    is no number. *)
Lemma record_round_scores_sample :
  record_round sample_float_of_string 1 1 3 sample_round_plan []
    (World 0 ["10"; "x"; "30"]%string)
  = Ok ([Ledger.Row 1 1 "B" 1 10 None None;
         Ledger.Row 1 1 "C" 2 0 None None;
         Ledger.Row 1 1 "A" 3 30 None None]%string,
        World 0 []).
Proof.
  assert (NoDup (Plan.Spieler <$> sample_round_plan)) as Hnd
    by decide_by_computation.
  assert (length sample_round_plan
          ≤ length (stdin (World 0 ["10"; "x"; "30"]%string))) as Hlen
    by (simpl; lia).
  exact (record_round_scores nat sample_float_of_string 1 1 3
           sample_round_plan [] (World 0 ["10"; "x"; "30"]%string) Hnd Hlen).
Defined.

(** C10 on the first round of a block of three players. *)
Lemma play_round_frame_sample :
  ∃ df' pivot w' new,
    play_round sample_float_of_string failing_fit sample_round_plan 1 3 1 []
      (World 0 ["10"; "x"; "30"]%string)
    = Ok ((df', pivot), w')
    ∧ record_round sample_float_of_string 1 1 3
        (filter (λ row, Plan.Runde row = 1) sample_round_plan) []
        (World 0 ["10"; "x"; "30"]%string)
      = Ok ([] ++ new, w')
    ∧ Forall2
        (λ row x,
           Ledger.Block x = 1
           ∧ Ledger.Runde x = 1 + (1 - 1) * 3
           ∧ Ledger.Spieler x = Plan.Spieler row
           ∧ Ledger.Platz x = Plan.Platz row)
        (filter (λ row, Plan.Runde row = 1) sample_round_plan) new
    ∧ correct failing_fit ([] ++ new) = Ok df'
    ∧ recorded <$> df' = recorded <$> ([] ++ new)
    ∧ length df' = length (@nil Ledger.row) + length new.
Proof.
  destruct (play_round sample_float_of_string failing_fit sample_round_plan
              1 3 1 [] (World 0 ["10"; "x"; "30"]%string))
    as [[[df' pivot] w']|e] eqn:Hrun; [|vm_compute in Hrun; discriminate Hrun].
  destruct (play_round_frame nat sample_float_of_string failing_fit
              sample_round_plan 1 3 1 [] (World 0 ["10"; "x"; "30"]%string)
              df' pivot w' Hrun) as (new & Hframe).
  exists df', pivot, w', new. split; [reflexivity|exact Hframe].
Defined.

(** C8 on the corrected scores 2, -1 and 3 of player A over three
    consecutive rounds: the cumulative series is 2, 1, 4. *)
Lemma aggregate_cumulative_series :
  (StronglySorted lt (index (aggregate three_round_ledger))
   ∧ ∃ i j,
       index (aggregate three_round_ledger) !! i = Some 3
       ∧ columns (aggregate three_round_ledger) !! j = Some "A"%string
       ∧ cell_at (aggregate three_round_ledger) i j
         = Some (cumulative three_round_ledger "A" 3))
  ∧ (λ r, cumulative three_round_ledger "A" r) <$> [1; 2; 3]
    = [2; 1; 4]%float
  ∧ aggregate three_round_ledger
    = Pivot [1; 2; 3] ["A"; "B"]%string [[2; -2]; [1; -1]; [4; -4]]%float.
Proof.
  split; [|split; reflexivity].
  apply (aggregate_cumulative three_round_ledger 3 "A").
  - decide_by_computation.
  - reflexivity.
  - reflexivity.
Defined.

(** The running sums of 0.1, 0.2 and 0.3 of one player: the compensation
    gives 0.6, where the additions alone give 0.6000000000000001. *)
Example group_cumsum_compensated :
  group_cumsum ∅
    [("A"%string, 0x1.999999999999ap-4%float);
     ("A"%string, 0x1.999999999999ap-3%float);
     ("A"%string, 0x1.3333333333333p-2%float)]
  = [0x1.999999999999ap-4; 0x1.3333333333334p-2; 0x1.3333333333333p-1]%float
  ∧ (0x1.999999999999ap-4 + 0x1.999999999999ap-3 + 0x1.3333333333333p-2)%float
    = 0x1.3333333333334p-1%float.
Proof. split; reflexivity. Qed.


(** X1 on three players: the second round of the plan. *)
Lemma create_seating_plan_round_players_three :
  ∃ plan w',
    create_seating_plan rotating_shuffle ["A"; "B"; "C"]%string (World 0 [])
    = Ok (plan, w')
    ∧ 1 ≤ 2 ≤ length ["A"; "B"; "C"]%string
    ∧ Plan.Spieler <$> filter (λ row, Plan.Runde row = 2) plan
      ≡ₚ ["A"; "B"; "C"]%string.
Proof.
  destruct (create_seating_plan rotating_shuffle ["A"; "B"; "C"]%string
              (World 0 []))
    as [[plan w']|e] eqn:Hrun; [|vm_compute in Hrun; discriminate Hrun].
  assert (1 ≤ 2 ≤ length ["A"; "B"; "C"]%string) as Hr by (simpl; lia).
  exists plan, w'. split; [reflexivity|]. split; [exact Hr|].
  exact (create_seating_plan_round_players nat rotating_shuffle
           rotating_shuffle_perm ["A"; "B"; "C"]%string (World 0 []) plan w'
           2 Hrun Hr).
Defined.

(** X2 on three players: the third seat of the plan. *)
Lemma create_seating_plan_seat_players_three :
  ∃ plan w',
    create_seating_plan rotating_shuffle ["A"; "B"; "C"]%string (World 0 [])
    = Ok (plan, w')
    ∧ 1 ≤ 3 ≤ length ["A"; "B"; "C"]%string
    ∧ Plan.Spieler <$> filter (λ row, Plan.Platz row = 3) plan
      ≡ₚ ["A"; "B"; "C"]%string.
Proof.
  destruct (create_seating_plan rotating_shuffle ["A"; "B"; "C"]%string
              (World 0 []))
    as [[plan w']|e] eqn:Hrun; [|vm_compute in Hrun; discriminate Hrun].
  assert (1 ≤ 3 ≤ length ["A"; "B"; "C"]%string) as Hseat by (simpl; lia).
  exists plan, w'. split; [reflexivity|]. split; [exact Hseat|].
  exact (create_seating_plan_seat_players nat rotating_shuffle
           rotating_shuffle_perm ["A"; "B"; "C"]%string (World 0 []) plan w'
           3 Hrun Hseat).
Defined.

(** X3: two lines of input for a round of three seats. *)
Lemma play_round_eof_two_lines :
  length (stdin (World 0 ["10"; "30"]%string))
  < length (filter (λ row, Plan.Runde row = 1) sample_round_plan)
  ∧ play_round sample_float_of_string zero_fit sample_round_plan 1 3 1 []
      (World 0 ["10"; "30"]%string)
    = Raise EOFError.
Proof.
  assert (length (stdin (World 0 ["10"; "30"]%string))
          < length (filter (λ row, Plan.Runde row = 1) sample_round_plan))
    as Hlen by (vm_compute; lia).
  split; [exact Hlen|].
  exact (play_round_eof nat sample_float_of_string zero_fit sample_round_plan
           1 3 1 [] (World 0 ["10"; "30"]%string) Hlen).
Defined.

(** X4 on two rounds of two players. *)
Lemma correct_idempotent_two :
  ∃ df',
    correct unconverged_fit two_round_ledger = Ok df'
    ∧ correct unconverged_fit df' = Ok df'.
Proof.
  destruct (correct unconverged_fit two_round_ledger) as [df'|e] eqn:Hrun;
    [|vm_compute in Hrun; discriminate Hrun].
  exists df'. split; [reflexivity|].
  exact (correct_idempotent unconverged_fit two_round_ledger df' Hrun).
Defined.

(** X6 on a first block of three players. *)
Lemma play_block_frame_three :
  ∃ df' w' plan w1,
    play_block rotating_shuffle sample_float_of_string zero_fit
      ["A"; "B"; "C"]%string 1 [] (World 0 (replicate 9 "10"%string))
    = Ok (df', w')
    ∧ create_seating_plan rotating_shuffle ["A"; "B"; "C"]%string
        (World 0 (replicate 9 "10"%string))
      = Ok (plan, w1)
    ∧ placement <$> df'
      = (placement <$> [])
        ++ block_placements 1 (length ["A"; "B"; "C"]%string) plan
    ∧ recorded <$> take (length (@nil Ledger.row)) df' = recorded <$> []
    ∧ length df'
      = length (@nil Ledger.row)
        + length ["A"; "B"; "C"]%string * length ["A"; "B"; "C"]%string
    ∧ stdin w'
      = drop (length ["A"; "B"; "C"]%string * length ["A"; "B"; "C"]%string)
          (stdin (World 0 (replicate 9 "10"%string))).
Proof.
  destruct (play_block rotating_shuffle sample_float_of_string zero_fit
              ["A"; "B"; "C"]%string 1 [] (World 0 (replicate 9 "10"%string)))
    as [[df' w']|e] eqn:Hrun; [|vm_compute in Hrun; discriminate Hrun].
  destruct (play_block_frame nat rotating_shuffle rotating_shuffle_perm
              sample_float_of_string zero_fit ["A"; "B"; "C"]%string 1 []
              (World 0 (replicate 9 "10"%string)) df' w' Hrun)
    as (plan & w1 & Hframe).
  exists df', w', plan, w1. split; [reflexivity|exact Hframe].
Defined.

(** X7 on a first block of three players: its second round. *)
Lemma play_block_round_players_three :
  ∃ df' w',
    play_block rotating_shuffle sample_float_of_string zero_fit
      ["A"; "B"; "C"]%string 1 [] (World 0 (replicate 9 "10"%string))
    = Ok (df', w')
    ∧ 1 ≤ 2 ≤ length ["A"; "B"; "C"]%string
    ∧ Ledger.Spieler
        <$> filter
              (λ x, Ledger.Runde x
                    = 2 + (1 - 1) * length ["A"; "B"; "C"]%string)
              (drop (length (@nil Ledger.row)) df')
      ≡ₚ ["A"; "B"; "C"]%string.
Proof.
  destruct (play_block rotating_shuffle sample_float_of_string zero_fit
              ["A"; "B"; "C"]%string 1 [] (World 0 (replicate 9 "10"%string)))
    as [[df' w']|e] eqn:Hrun; [|vm_compute in Hrun; discriminate Hrun].
  assert (1 ≤ 2 ≤ length ["A"; "B"; "C"]%string) as Hr by (simpl; lia).
  exists df', w'. split; [reflexivity|]. split; [exact Hr|].
  exact (play_block_round_players nat rotating_shuffle rotating_shuffle_perm
           sample_float_of_string zero_fit ["A"; "B"; "C"]%string 1 []
           (World 0 (replicate 9 "10"%string)) df' w' 2 Hrun Hr).
Defined.

(** X8 on a second block of three players, after a table of one row: the
    first seat. *)
Lemma play_block_seat_players_three :
  ∃ df' w',
    play_block rotating_shuffle sample_float_of_string zero_fit
      ["A"; "B"; "C"]%string 2 [Ledger.Row 1 1 "A" 1 10 None None]
      (World 0 (replicate 9 "30"%string))
    = Ok (df', w')
    ∧ 1 ≤ 1 ≤ length ["A"; "B"; "C"]%string
    ∧ Ledger.Spieler
        <$> filter (λ x, Ledger.Platz x = 1)
              (drop (length [Ledger.Row 1 1 "A" 1 10 None None]) df')
      ≡ₚ ["A"; "B"; "C"]%string.
Proof.
  destruct (play_block rotating_shuffle sample_float_of_string zero_fit
              ["A"; "B"; "C"]%string 2 [Ledger.Row 1 1 "A" 1 10 None None]
              (World 0 (replicate 9 "30"%string)))
    as [[df' w']|e] eqn:Hrun; [|vm_compute in Hrun; discriminate Hrun].
  assert (1 ≤ 1 ≤ length ["A"; "B"; "C"]%string) as Hseat by (simpl; lia).
  exists df', w'. split; [reflexivity|]. split; [exact Hseat|].
  exact (play_block_seat_players nat rotating_shuffle rotating_shuffle_perm
           sample_float_of_string zero_fit ["A"; "B"; "C"]%string 2
           [Ledger.Row 1 1 "A" 1 10 None None]
           (World 0 (replicate 9 "30"%string)) df' w' 1 Hrun Hseat).
Defined.

(** X9 on one block: 49 scores and the answer n. *)
Lemma main_rounds_one_block :
  ∃ blocks df_all final_korr w',
    main rotating_shuffle sample_float_of_string zero_fit (λ s, s) 1
      (World 0 one_block_input)
    = Ok (Some (blocks, df_all, final_korr), w')
    ∧ 1 ≤ blocks
    ∧ Ledger.Runde <$> df_all = repeat_each 7 (seq 1 (blocks * 7))
    ∧ Ledger.Block <$> df_all = repeat_each 49 (seq 1 blocks)
    ∧ is_Some final_korr.
Proof.
  destruct (main rotating_shuffle sample_float_of_string zero_fit (λ s, s) 1
              (World 0 one_block_input))
    as [[[[[blocks df_all] final_korr]|] w']|e] eqn:Hrun;
    [|vm_compute in Hrun; discriminate Hrun
     |vm_compute in Hrun; discriminate Hrun].
  exists blocks, df_all, final_korr, w'. split; [reflexivity|].
  exact (main_rounds nat rotating_shuffle rotating_shuffle_perm
           sample_float_of_string zero_fit (λ s, s) 1
           (World 0 one_block_input) blocks df_all final_korr w' Hrun).
Defined.

(** X10 on a block whose second round meets a fit whose fitted values
    cannot be read. *)
Lemma main_raises_fit :
  ∃ e,
    main rotating_shuffle sample_float_of_string singular_fit (λ s, s) 1
      (World 0 one_block_input)
    = Raise e
    ∧ (e = EOFError ∨ raised_by_model singular_fit e).
Proof.
  destruct (main rotating_shuffle sample_float_of_string singular_fit
              (λ s, s) 1 (World 0 one_block_input))
    as [out|e] eqn:Hrun; [vm_compute in Hrun; discriminate Hrun|].
  exists e. split; [reflexivity|].
  exact (main_raises nat rotating_shuffle rotating_shuffle_perm
           sample_float_of_string singular_fit (λ s, s) 1
           (World 0 one_block_input) e Hrun).
Defined.

(** X11 on the input of one block, with fuel for more blocks than the input
    can hold. *)
Lemma main_within_fuel_one_block :
  length (stdin (World 0 one_block_input)) < 51
  ∧ within_fuel
      (main rotating_shuffle sample_float_of_string zero_fit (λ s, s) 51
         (World 0 one_block_input)).
Proof.
  assert (length (stdin (World 0 one_block_input)) < 51) as Hlen
    by (vm_compute; lia).
  split; [exact Hlen|].
  exact (main_within_fuel nat rotating_shuffle rotating_shuffle_perm
           sample_float_of_string zero_fit (λ s, s) 51
           (World 0 one_block_input) Hlen).
Defined.

(** X12 on a first round of three seats, with a fit that would raise. *)
Lemma play_round_first_sample :
  length (filter (λ row, Plan.Runde row = 1) sample_round_plan)
  ≤ length (stdin (World 0 ["10"; "x"; "30"]%string))
  ∧ ∃ new w',
      record_round sample_float_of_string 1 1 3
        (filter (λ row, Plan.Runde row = 1) sample_round_plan) []
        (World 0 ["10"; "x"; "30"]%string)
      = Ok (new, w')
      ∧ play_round sample_float_of_string failing_fit sample_round_plan
          1 3 1 [] (World 0 ["10"; "x"; "30"]%string)
        = Ok ((naive_correction new, aggregate (naive_correction new)), w').
Proof.
  assert (length (filter (λ row, Plan.Runde row = 1) sample_round_plan)
          ≤ length (stdin (World 0 ["10"; "x"; "30"]%string))) as Hlen
    by (vm_compute; lia).
  split; [exact Hlen|].
  exact (play_round_first nat sample_float_of_string failing_fit
           sample_round_plan 1 3 1 (World 0 ["10"; "x"; "30"]%string) Hlen).
Defined.

(** X13 on two rounds of two players. *)
Lemma final_analysis_corrected_two :
  ∃ df',
    correct unconverged_fit two_round_ledger = Ok df'
    ∧ 2 ≤ nunique (Ledger.Runde <$> two_round_ledger)
    ∧ final_analysis unconverged_fit df'
      = Ok (Some (Ledger.Punkte_korr <$> df')).
Proof.
  destruct (correct unconverged_fit two_round_ledger) as [df'|e] eqn:Hrun;
    [|vm_compute in Hrun; discriminate Hrun].
  assert (2 ≤ nunique (Ledger.Runde <$> two_round_ledger)) as Hn
    by (vm_compute; lia).
  exists df'. split; [reflexivity|]. split; [exact Hn|].
  exact (final_analysis_corrected unconverged_fit two_round_ledger df'
           Hrun Hn).
Defined.

(** X14: the first round of a second block of three players, recorded into
    the table of a first round, with a fit that returned on that table and
    raises on the larger one. *)
Lemma play_round_fit_raises_sample :
  1 ≤ length (filter (λ row, Plan.Runde row = 1) sample_round_plan)
  ∧ record_round sample_float_of_string 2 1 3
      (filter (λ row, Plan.Runde row = 1) sample_round_plan)
      single_round_ledger (World 0 ["10"; "x"; "30"]%string)
    = Ok (single_round_ledger
            ++ [Ledger.Row 2 4 "B" 1 10 None None;
                Ledger.Row 2 4 "C" 2 0 None None;
                Ledger.Row 2 4 "A" 3 30 None None]%string,
          World 0 [])
  ∧ Ledger.Row 1 1 "A" 1 10 None None ∈ single_round_ledger
  ∧ Ledger.Runde (Ledger.Row 1 1 "A" 1 10 None None) ≠ 1 + (2 - 1) * 3
  ∧ (∃ fit, fit_failing_above_three (model_frame single_round_ledger)
            = Ok fit)
  ∧ fit_failing_above_three
      (model_frame
         (single_round_ledger
            ++ [Ledger.Row 2 4 "B" 1 10 None None;
                Ledger.Row 2 4 "C" 2 0 None None;
                Ledger.Row 2 4 "A" 3 30 None None]%string))
    = Raise LinAlgError
  ∧ play_round sample_float_of_string fit_failing_above_three
      sample_round_plan 2 3 1 single_round_ledger
      (World 0 ["10"; "x"; "30"]%string)
    = Raise LinAlgError.
Proof.
  assert (1 ≤ length (filter (λ row, Plan.Runde row = 1) sample_round_plan))
    as Hseats by (vm_compute; lia).
  assert (record_round sample_float_of_string 2 1 3
            (filter (λ row, Plan.Runde row = 1) sample_round_plan)
            single_round_ledger (World 0 ["10"; "x"; "30"]%string)
          = Ok (single_round_ledger
                  ++ [Ledger.Row 2 4 "B" 1 10 None None;
                      Ledger.Row 2 4 "C" 2 0 None None;
                      Ledger.Row 2 4 "A" 3 30 None None]%string,
                World 0 [])) as Hrec by reflexivity.
  assert (Ledger.Row 1 1 "A" 1 10 None None ∈ single_round_ledger) as Hx
    by (apply elem_of_cons; left; reflexivity).
  assert (Ledger.Runde (Ledger.Row 1 1 "A" 1 10 None None) ≠ 1 + (2 - 1) * 3)
    as Hr by (simpl; lia).
  assert (fit_failing_above_three
            (model_frame
               (single_round_ledger
                  ++ [Ledger.Row 2 4 "B" 1 10 None None;
                      Ledger.Row 2 4 "C" 2 0 None None;
                      Ledger.Row 2 4 "A" 3 30 None None]%string))
          = Raise LinAlgError) as Hfit by reflexivity.
  split; [exact Hseats|]. split; [exact Hrec|]. split; [exact Hx|].
  split; [exact Hr|]. split; [by eexists|]. split; [exact Hfit|].
  exact (play_round_fit_raises nat sample_float_of_string
           fit_failing_above_three sample_round_plan 2 3 1
           single_round_ledger (World 0 ["10"; "x"; "30"]%string) _ _
           (Ledger.Row 1 1 "A" 1 10 None None) LinAlgError
           Hseats Hrec Hx Hr Hfit).
Defined.

(** X15 on a first block of three players and nine lines of input. *)
Lemma play_block_returns_three :
  ["A"; "B"; "C"]%string ≠ []
  ∧ length ["A"; "B"; "C"]%string * length ["A"; "B"; "C"]%string
    ≤ length (stdin (World 0 (replicate 9 "10"%string)))
  ∧ model_returns zero_fit
  ∧ ∃ df' w',
      play_block rotating_shuffle sample_float_of_string zero_fit
        ["A"; "B"; "C"]%string 1 [] (World 0 (replicate 9 "10"%string))
      = Ok (df', w')
      ∧ length df'
        = length (@nil Ledger.row)
          + length ["A"; "B"; "C"]%string * length ["A"; "B"; "C"]%string
      ∧ stdin w'
        = drop (length ["A"; "B"; "C"]%string * length ["A"; "B"; "C"]%string)
            (stdin (World 0 (replicate 9 "10"%string))).
Proof.
  assert (["A"; "B"; "C"]%string ≠ []) as Hp by discriminate.
  assert (length ["A"; "B"; "C"]%string * length ["A"; "B"; "C"]%string
          ≤ length (stdin (World 0 (replicate 9 "10"%string)))) as Hlen
    by (vm_compute; lia).
  assert (model_returns zero_fit) as Hfit
    by (intros data; eexists _, _; split; reflexivity).
  repeat (split; [assumption|]).
  exact (play_block_returns nat rotating_shuffle rotating_shuffle_perm
           sample_float_of_string zero_fit ["A"; "B"; "C"]%string 1 []
           (World 0 (replicate 9 "10"%string)) Hp Hlen Hfit).
Defined.

(** X16 on a first block of three players that is answered by j: the loop
    goes on with block 2. *)
Lemma block_loop_answer_j :
  ["A"; "B"; "C"]%string ≠ []
  ∧ stdin (World 0 (replicate 9 "10"%string ++ "j"%string :: ["30"%string]))
    = (replicate 9 "10"%string ++ "j"%string :: ["30"%string])
  ∧ length (replicate 9 "10"%string)
    = length ["A"; "B"; "C"]%string * length ["A"; "B"; "C"]%string
  ∧ model_returns zero_fit
  ∧ ∃ df' g,
      play_block rotating_shuffle sample_float_of_string zero_fit
        ["A"; "B"; "C"]%string (0 + 1) []
        (World 0 (replicate 9 "10"%string ++ "j"%string :: ["30"%string]))
      = Ok (df', World g ("j" :: ["30"])%string)
      ∧ block_loop rotating_shuffle sample_float_of_string zero_fit (λ s, s)
          1 ["A"; "B"; "C"]%string 0 []
          (World 0 (replicate 9 "10"%string ++ "j"%string :: ["30"%string]))
        = if decide ((λ s : string, s) "j"%string = "n"%string)
          then Ok (Some (0 + 1, df'), World g ["30"]%string)
          else block_loop rotating_shuffle sample_float_of_string zero_fit
                 (λ s, s) 0 ["A"; "B"; "C"]%string (0 + 1) df'
                 (World g ["30"]%string).
Proof.
  assert (["A"; "B"; "C"]%string ≠ []) as Hp by discriminate.
  assert (stdin (World 0 (replicate 9 "10"%string ++ "j"%string :: ["30"%string]))
          = (replicate 9 "10"%string ++ "j"%string :: ["30"%string])) as Hin
    by reflexivity.
  assert (length (replicate 9 "10"%string)
          = length ["A"; "B"; "C"]%string * length ["A"; "B"; "C"]%string)
    as Hlen by reflexivity.
  assert (model_returns zero_fit) as Hfit
    by (intros data; eexists _, _; split; reflexivity).
  repeat (split; [assumption|]).
  exact (block_loop_answer nat rotating_shuffle rotating_shuffle_perm
           sample_float_of_string zero_fit (λ s, s) 0 ["A"; "B"; "C"]%string
           0 [] (World 0 (replicate 9 "10"%string ++ "j"%string :: ["30"%string]))
           (replicate 9 "10"%string) "j"%string ["30"]%string
           Hp Hin Hlen Hfit).
Defined.

(** X17 on 49 scores and the answer n. *)
Lemma main_returns_one_block :
  stdin (World 0 one_block_input) = replicate 49 "10"%string ++ "n"%string :: []
  ∧ length (replicate 49 "10"%string) = 49
  ∧ (λ s : string, s) "n"%string = "n"%string
  ∧ model_returns zero_fit
  ∧ ∃ df_all final_korr w',
      main rotating_shuffle sample_float_of_string zero_fit (λ s, s) 1
        (World 0 one_block_input)
      = Ok (Some (1, df_all, Some final_korr), w')
      ∧ length df_all = 49
      ∧ length final_korr = 49
      ∧ stdin w' = [].
Proof.
  assert (stdin (World 0 one_block_input)
          = replicate 49 "10"%string ++ "n"%string :: []) as Hin
    by reflexivity.
  assert (length (replicate 49 "10"%string) = 49) as Hlen by reflexivity.
  assert ((λ s : string, s) "n"%string = "n"%string) as Hanswer
    by reflexivity.
  assert (model_returns zero_fit) as Hfit
    by (intros data; eexists _, _; split; reflexivity).
  repeat (split; [assumption|]).
  exact (main_returns nat rotating_shuffle rotating_shuffle_perm
           sample_float_of_string zero_fit (λ s, s) 0
           (World 0 one_block_input) (replicate 49 "10"%string) "n"%string []
           Hin Hlen Hanswer Hfit).
Defined.

(** X18 on the empty list of players. *)
Lemma create_seating_plan_raises_nil :
  create_seating_plan rotating_shuffle [] (World 0 []) = Raise KeyError
  ↔ @nil string = [] ∧ KeyError = KeyError.
Proof.
  exact (create_seating_plan_raises nat rotating_shuffle rotating_shuffle_perm
           [] (World 0 []) KeyError).
Defined.

(** X20 on the first round of a second block of three players, recorded
    into the table of a first round. *)
Lemma play_round_full_rounds_sample :
  full_rounds ["A"; "B"; "C"]%string single_round_ledger
  ∧ Plan.Spieler <$> filter (λ row, Plan.Runde row = 1) sample_round_plan
    ≡ₚ ["A"; "B"; "C"]%string
  ∧ ∃ df' pivot w',
      play_round sample_float_of_string zero_fit sample_round_plan 2 3 1
        single_round_ledger (World 0 ["10"; "x"; "30"]%string)
      = Ok ((df', pivot), w')
      ∧ full_rounds ["A"; "B"; "C"]%string df'
      ∧ pivot = aggregate df'.
Proof.
  assert (full_rounds ["A"; "B"; "C"]%string single_round_ledger) as Hfull.
  { assert (Forall
              (λ x, Ledger.Spieler x ∈ ["A"; "B"; "C"]%string
                    ∧ Forall
                        (λ p, Exists
                                (λ z, Ledger.Runde z = Ledger.Runde x
                                      ∧ Ledger.Spieler z = p)
                                single_round_ledger)
                        ["A"; "B"; "C"]%string)
              single_round_ledger) as Hall by decide_by_computation.
    intros x Hx. rewrite Forall_forall in Hall.
    destruct (Hall x Hx) as [Hp Hrows]. split; [exact Hp|].
    intros p Hpin. rewrite Forall_forall in Hrows.
    specialize (Hrows p Hpin). apply Exists_exists in Hrows as (z & Hz & Hzx).
    by exists z. }
  assert (Plan.Spieler
            <$> filter (λ row, Plan.Runde row = 1) sample_round_plan
          ≡ₚ ["A"; "B"; "C"]%string) as Hperm by decide_by_computation.
  split; [exact Hfull|]. split; [exact Hperm|].
  destruct (play_round sample_float_of_string zero_fit sample_round_plan
              2 3 1 single_round_ledger (World 0 ["10"; "x"; "30"]%string))
    as [[[df' pivot] w']|e] eqn:Hrun; [|vm_compute in Hrun; discriminate Hrun].
  exists df', pivot, w'. split; [reflexivity|].
  exact (play_round_full_rounds nat sample_float_of_string zero_fit
           ["A"; "B"; "C"]%string sample_round_plan 2 3 1 single_round_ledger
           (World 0 ["10"; "x"; "30"]%string) df' pivot w' Hfull Hperm Hrun).
Defined.

(** X21 on one block: 49 scores and the answer n. *)
Lemma main_full_rounds_one_block :
  ∃ blocks df_all final_korr w',
    main rotating_shuffle sample_float_of_string zero_fit (λ s, s) 1
      (World 0 one_block_input)
    = Ok (Some (blocks, df_all, final_korr), w')
    ∧ (∀ r, (∃ x, x ∈ df_all ∧ Ledger.Runde x = r) ↔ 1 ≤ r ≤ blocks * 7)
    ∧ full_rounds main_players df_all
    ∧ ∀ x y, x ∈ df_all → y ∈ df_all →
        ∃ z, z ∈ df_all
             ∧ Ledger.Runde z = Ledger.Runde x
             ∧ Ledger.Spieler z = Ledger.Spieler y.
Proof.
  destruct (main rotating_shuffle sample_float_of_string zero_fit (λ s, s) 1
              (World 0 one_block_input))
    as [[[[[blocks df_all] final_korr]|] w']|e] eqn:Hrun;
    [|vm_compute in Hrun; discriminate Hrun
     |vm_compute in Hrun; discriminate Hrun].
  exists blocks, df_all, final_korr, w'. split; [reflexivity|].
  exact (main_full_rounds nat rotating_shuffle rotating_shuffle_perm
           sample_float_of_string zero_fit (λ s, s) 1
           (World 0 one_block_input) blocks df_all final_korr w' Hrun).
Defined.
